(** * youtube_transcript: a shallow embedding of [src/lib/fetch-youtube.ts]
      and [src/pages/api/youtube.ts]

    Conventions of the embedding.

    - A JavaScript string is a [string]: a sequence of code units, here the
      code units below 256 (one [ascii] each).  Caption text outside that
      range is not covered.
    - A JavaScript number that holds a count of milliseconds is a [number]:
      an integer, [NaN] or an infinity (what [Math.round] and [Number] of a
      run of digits produce); an array index or an HTTP status is a [Z].
    - [undefined] / [null] is [None].
    - A regular expression literal of the source is a value of [regex]; the
      backtracking matcher [rmatch] gives it the priorities of the
      ECMAScript matcher (leftmost start, first alternative first, greedy
      quantifiers longest first, lazy quantifiers shortest first).
    - A function that can [throw] returns a [result]; the asynchronous
      pipeline runs in the monad [M] (console, network oracle, exceptions). *)

From Stdlib Require Import ZArith NArith Ascii String List Bool Lia.
From Stdlib Require Import Sorting.Sorted Sorting.Permutation.
From Stdlib Require Import Floats.SpecFloat.
From stdpp Require Import base decidable option list gmap sets strings pretty.

Import ListNotations.
Local Open Scope string_scope.
Local Open Scope list_scope.

#[local] Arguments String.append !_ _ / : simpl nomatch.

(** ** Code units and character classes *)

Module Chars.

Definition code (c : ascii) : N := N_of_ascii c.

Definition in_range (lo hi : N) (c : ascii) : bool :=
  ((lo <=? code c) && (code c <=? hi))%N.

(** [\d] *)
Definition is_digit : ascii -> bool := in_range 48 57.

(** [\w], that is [[A-Za-z0-9_]] *)
Definition is_word (c : ascii) : bool :=
  in_range 97 122 c || in_range 65 90 c || in_range 48 57 c
  || (code c =? 95)%N.

(** [[\w-]] *)
Definition is_id_char (c : ascii) : bool :=
  is_word c || (code c =? 45)%N.

(** [[a-zA-Z0-9_-]] *)
Definition is_key_char (c : ascii) : bool :=
  in_range 97 122 c || in_range 65 90 c || in_range 48 57 c
  || (code c =? 95)%N || (code c =? 45)%N.

(** White space and line terminators of ECMAScript below 256: TAB, LF, VT,
    FF, CR, SP and NBSP.  It is the class [\s] and what [trim] removes. *)
Definition is_space (c : ascii) : bool :=
  in_range 9 13 c || (code c =? 32)%N || (code c =? 160)%N.

(** [.] : anything but a line terminator *)
Definition is_dot (c : ascii) : bool :=
  negb ((code c =? 10)%N || (code c =? 13)%N).

(** [[\s\S]] *)
Definition is_any (c : ascii) : bool := is_space c || negb (is_space c).

(** a negated one-character class, as in [[^>]] *)
Definition is_not (x : ascii) (c : ascii) : bool := negb (Ascii.eqb c x).

(** [toLowerCase] on one code unit below 256: A-Z, and the Latin-1 capitals
    U+00C0..U+00DE except the multiplication sign U+00D7. *)
Definition lower (c : ascii) : ascii :=
  if in_range 65 90 c then ascii_of_N (code c + 32)
  else if in_range 192 222 c && negb (code c =? 215)%N
       then ascii_of_N (code c + 32)
       else c.

End Chars.

(** ** The string methods the source calls *)

Module Str.

(** [s.startsWith(p)] with the tail that follows the prefix *)
Fixpoint strip (p s : string) : option string :=
  match p with
  | EmptyString => Some s
  | String a p' =>
      match s with
      | String c t => if Ascii.eqb a c then strip p' t else None
      | EmptyString => None
      end
  end.

Definition startsWith (s p : string) : bool :=
  match strip p s with Some _ => true | None => false end.

(** [s.includes(p)] *)
Fixpoint includes (s p : string) : bool :=
  startsWith s p
  || match s with
     | String _ t => includes t p
     | EmptyString => false
     end.

(** [s.endsWith(p)]: a suffix of [s] is [p] *)
Fixpoint endsWith (s p : string) : bool :=
  String.eqb s p
  || match s with
     | String _ t => endsWith t p
     | EmptyString => false
     end.

(** [s.replace(p, r)] for a string pattern [p] and a replacement [r] free
    of [$]: the first occurrence only. *)
Fixpoint replace (s p r : string) : string :=
  match strip p s with
  | Some t => r +:+ t
  | None =>
      match s with
      | String c t => String c (replace t p r)
      | EmptyString => EmptyString
      end
  end.

Fixpoint map (f : ascii -> ascii) (s : string) : string :=
  match s with
  | EmptyString => EmptyString
  | String c t => String (f c) (map f t)
  end.

Definition toLowerCase : string -> string := map Chars.lower.

Fixpoint trimStart (s : string) : string :=
  match s with
  | String c t => if Chars.is_space c then trimStart t else s
  | EmptyString => EmptyString
  end.

Fixpoint trimEnd (s : string) : string :=
  match s with
  | String c t =>
      match trimEnd t with
      | EmptyString => if Chars.is_space c then EmptyString
                       else String c EmptyString
      | t' => String c t'
      end
  | EmptyString => EmptyString
  end.

Definition trim (s : string) : string := trimEnd (trimStart s).

(** truthiness of a string *)
Definition nonempty (s : string) : bool :=
  match s with EmptyString => false | String _ _ => true end.

Fixpoint take (n : nat) (s : string) : string :=
  match n, s with
  | S n', String c t => String c (take n' t)
  | _, _ => EmptyString
  end.

(** the mathematical value of a run of digits *)
Fixpoint digits_acc (acc : Z) (s : string) : Z :=
  match s with
  | EmptyString => acc
  | String c t =>
      digits_acc (10 * acc + Z.of_N (Chars.code c - 48)) t
  end.

Definition digits (s : string) : Z := digits_acc 0 s.

End Str.

(** ** Numbers *)

(** The Number values that a start or a duration can take: the results of
    [Math.round] and of [Number] applied to a run of digits are integers,
    [NaN] or an infinity.  The two zeros are one value here: the code tells
    them apart nowhere (both print as 0 and compare as equal).  A Number
    with a fraction part comes out of neither parser and is left out; the
    comparator and the key of the normalizer treat it as they treat an
    integer. *)
Inductive number : Type :=
| Num (z : Z)
| NaN
| PosInf
| NegInf.

#[global] Instance number_eq_dec : EqDecision number.
Proof. solve_decision. Defined.

Module Number.

(** [a - b].  Between two integers the difference of the model is exact
    where the machine rounds it; rounding changes neither its sign nor
    whether it is zero, and the code uses the difference only as the answer
    of a sort comparator. *)
Definition sub (a b : number) : number :=
  match a, b with
  | NaN, _ | _, NaN => NaN
  | Num x, Num y => Num (x - y)
  | PosInf, PosInf | NegInf, NegInf => NaN
  | PosInf, _ | _, NegInf => PosInf
  | NegInf, _ | _, PosInf => NegInf
  end.

(** [${n}], the conversion of a Number to a string: an integer in decimal
    (the machine switches to exponent notation from 10^21 on; like the
    decimal form it gives different strings for different numbers, which is
    all the code relies on), [NaN], [Infinity], [-Infinity]. *)
Definition toString (n : number) : string :=
  match n with
  | Num z => pretty z
  | NaN => "NaN"
  | PosInf => "Infinity"
  | NegInf => "-Infinity"
  end.

(** [a <= b] on Numbers: false as soon as one of them is [NaN] *)
Definition le (a b : number) : Prop :=
  match a, b with
  | Num x, Num y => (x <= y)%Z
  | NegInf, (Num _ | PosInf | NegInf) => True
  | (Num _ | PosInf), PosInf => True
  | _, _ => False
  end.

(** The nearest integer to [n >= 0] that has at most 53 significant binary
    digits, ties going to the even one: the rounding of binary64. *)
Definition round_magnitude (n : Z) : Z :=
  let e := (Z.log2 n - 52)%Z in
  if (e <=? 0)%Z then n
  else
    let q := Z.shiftr n e in
    let r := (n - Z.shiftl q e)%Z in
    let half := Z.shiftl 1 (e - 1) in
    let up := (half <? r)%Z || ((r =? half)%Z && Z.odd q) in
    Z.shiftl (if up then (q + 1)%Z else q) e.

(** The Number value of an integer: rounded to binary64, an infinity from
    2^1024 on. *)
Definition of_integer (z : Z) : number :=
  let m := round_magnitude (Z.abs z) in
  if (Z.shiftl 1 1024 <=? m)%Z then (if (z <? 0)%Z then NegInf else PosInf)
  else Num (Z.sgn z * m).

(** [Number(s)] for [s] matching [\d+]: the digits read as a decimal
    integer, rounded to binary64 (as the engines do for any number of
    digits). *)
Definition of_digits (s : string) : number := of_integer (Str.digits s).

(** The same rounding by the Standard Library's model of IEEE 754. *)
Definition of_spec_float (f : spec_float) : number :=
  match f with
  | S754_zero _ => Num 0
  | S754_infinity s => if s then NegInf else PosInf
  | S754_nan => NaN
  | S754_finite s m e => Num ((if s then -1 else 1) * Z.shiftl (Zpos m) e)
  end.

Definition of_integer_ieee (z : Z) : number :=
  of_spec_float (binary_normalize 53 1024 z 0 false).


End Number.

(** ** Regular expressions *)

Module Regex.

Inductive regex : Type :=
| Lit (l : string)                  (* a literal run of characters *)
| Cls (p : ascii -> bool)           (* one character of a class *)
| Seq (r1 r2 : regex)               (* r1 r2 *)
| Alt (r1 r2 : regex)               (* r1|r2 *)
| Opt (r : regex)                   (* (?:r)? *)
| Star (p : ascii -> bool)          (* [p]* *)
| StarLazy (p : ascii -> bool)      (* [p]*? *)
| Cap (i : nat) (r : regex)         (* the i-th capturing group *)
| WordB.                            (* \b *)

(** [[p]+] *)
Definition Plus (p : ascii -> bool) : regex := Seq (Cls p) (Star p).

(** [[p]{n}] *)
Fixpoint Rep (n : nat) (p : ascii -> bool) : regex :=
  match n with
  | O => Lit ""
  | S n' => Seq (Cls p) (Rep n' p)
  end.

(** Captures, latest first. *)
Definition caps : Type := list (nat * string).

Fixpoint group (i : nat) (cs : caps) : option string :=
  match cs with
  | [] => None
  | (j, v) :: cs' => if Nat.eqb i j then Some v else group i cs'
  end.

(** The matcher walks the input with the character before the current
    position at hand (for [\b]) and calls its continuation on what
    follows the part it consumed. *)
Definition cont (R : Type) : Type := option ascii -> string -> caps -> option R.

Definition orelse {R} (a b : option R) : option R :=
  match a with Some x => Some x | None => b end.

Fixpoint lit {R} (l : string) (prev : option ascii) (s : string)
    (cs : caps) (k : cont R) : option R :=
  match l with
  | EmptyString => k prev s cs
  | String a l' =>
      match s with
      | String c t => if Ascii.eqb a c then lit l' (Some c) t cs k else None
      | EmptyString => None
      end
  end.

Fixpoint star {R} (p : ascii -> bool) (k : cont R) (prev : option ascii)
    (s : string) (cs : caps) : option R :=
  match s with
  | String c t =>
      if p c then orelse (star p k (Some c) t cs) (k prev s cs)
      else k prev s cs
  | EmptyString => k prev s cs
  end.

Fixpoint star_lazy {R} (p : ascii -> bool) (k : cont R) (prev : option ascii)
    (s : string) (cs : caps) : option R :=
  orelse (k prev s cs)
    match s with
    | String c t => if p c then star_lazy p k (Some c) t cs else None
    | EmptyString => None
    end.

Definition word_at (c : option ascii) : bool :=
  match c with Some c => Chars.is_word c | None => false end.

Definition head (s : string) : option ascii :=
  match s with String c _ => Some c | EmptyString => None end.

(** what was consumed between [s] and its suffix [s'] *)
Definition consumed (s s' : string) : string :=
  Str.take (String.length s - String.length s') s.

Fixpoint rmatch {R} (r : regex) (prev : option ascii) (s : string)
    (cs : caps) (k : cont R) : option R :=
  match r with
  | Lit l => lit l prev s cs k
  | Cls p =>
      match s with
      | String c t => if p c then k (Some c) t cs else None
      | EmptyString => None
      end
  | Seq r1 r2 =>
      rmatch r1 prev s cs (fun prev' s' cs' => rmatch r2 prev' s' cs' k)
  | Alt r1 r2 => orelse (rmatch r1 prev s cs k) (rmatch r2 prev s cs k)
  | Opt r1 => orelse (rmatch r1 prev s cs k) (k prev s cs)
  | Star p => star p k prev s cs
  | StarLazy p => star_lazy p k prev s cs
  | Cap i r1 =>
      rmatch r1 prev s cs
        (fun prev' s' cs' => k prev' s' ((i, consumed s s') :: cs'))
  | WordB =>
      if xorb (word_at prev) (word_at (head s)) then k prev s cs else None
  end.

(** A match at the current position: its captures and what follows it. *)
Definition match_here (r : regex) (prev : option ascii) (s : string)
    : option (caps * string) :=
  rmatch r prev s [] (fun _ s' cs => Some (cs, s')).

(** [s.match(r)] for a regex without the [g] flag: the leftmost match. *)
Fixpoint exec_from (r : regex) (prev : option ascii) (s : string)
    : option caps :=
  match match_here r prev s with
  | Some (cs, _) => Some cs
  | None =>
      match s with
      | String c t => exec_from r (Some c) t
      | EmptyString => None
      end
  end.

Definition exec (r : regex) (s : string) : option caps := exec_from r None s.

(** [s.matchAll(r)] for a regex with the [g] flag: the matches from left to
    right, each search resuming where the previous match ended (one
    position further after an empty match).  [skip] counts the positions
    still covered by the previous match. *)
Fixpoint matchAll_from (r : regex) (skip : nat) (prev : option ascii)
    (s : string) : list caps :=
  match s with
  | EmptyString =>
      match skip, match_here r prev s with
      | O, Some (cs, _) => [cs]
      | _, _ => []
      end
  | String c t =>
      match skip with
      | S n => matchAll_from r n (Some c) t
      | O =>
          match match_here r prev s with
          | Some (cs, s') =>
              cs :: matchAll_from r
                      (String.length s - String.length s' - 1) (Some c) t
          | None => matchAll_from r O (Some c) t
          end
      end
  end.

Definition matchAll (r : regex) (s : string) : list caps :=
  matchAll_from r O None s.

(** [s.replace(r, rep)] for a regex with the [g] flag and a replacement
    free of [$]. *)
Fixpoint replaceAll_from (r : regex) (rep : string) (skip : nat)
    (prev : option ascii) (s : string) : string :=
  match s with
  | EmptyString =>
      match skip, match_here r prev s with
      | O, Some _ => rep
      | _, _ => EmptyString
      end
  | String c t =>
      match skip with
      | S n => replaceAll_from r rep n (Some c) t
      | O =>
          match match_here r prev s with
          | Some (_, s') =>
              match String.length s - String.length s' with
              | O => rep +:+ String c (replaceAll_from r rep O (Some c) t)
              | S n => rep +:+ replaceAll_from r rep n (Some c) t
              end
          | None => String c (replaceAll_from r rep O (Some c) t)
          end
      end
  end.

Definition replaceAll (r : regex) (rep : string) (s : string) : string :=
  replaceAll_from r rep O None s.

End Regex.

Import Regex.

(** ** [extractVideoId] *)

(** [/(?:https?:\/\/)?(?:www\.)?(?:youtube\.com\/(?:watch\?v=|embed\/|v\/|live\/)|youtu\.be\/)([\w-]{11})/] *)
Definition video_id_re : regex :=
  Seq (Opt (Seq (Lit "http") (Seq (Opt (Lit "s")) (Lit "://"))))
 (Seq (Opt (Lit "www."))
 (Seq (Alt (Seq (Lit "youtube.com/")
                (Alt (Lit "watch?v=")
                (Alt (Lit "embed/") (Alt (Lit "v/") (Lit "live/")))))
           (Lit "youtu.be/"))
      (Cap 1 (Rep 11 Chars.is_id_char)))).

Definition extractVideoId (url : string) : option string :=
  match exec video_id_re url with
  | Some m => group 1 m
  | None => None
  end.

(** Predicates on strings used in statements. *)

Module StrPred.

Fixpoint all (p : ascii -> bool) (s : string) : bool :=
  match s with
  | EmptyString => true
  | String c t => p c && all p t
  end.

Fixpoint last (s : string) (d : option ascii) : option ascii :=
  match s with
  | EmptyString => d
  | String c t => last t (Some c)
  end.

(** any character but the separator of [segment_key] *)
Definition not_bar (c : ascii) : bool := negb (Ascii.eqb c "|").

End StrPred.

(** 11 characters of [[\w-]] *)
Definition is_video_id (id : string) : bool :=
  Nat.eqb (String.length id) 11 && StrPred.all Chars.is_id_char id.

(** The markers of the five supported shapes. *)
Definition video_url_markers : list string :=
  [ "youtube.com/watch?v="; "youtu.be/"; "youtube.com/embed/";
    "youtube.com/v/"; "youtube.com/live/" ].


(** ** [decodeHtml] *)

(** the code unit 34, the double quote *)
Definition dq : ascii := "034"%char.
Definition DQ : string := String dq EmptyString.

(** a sequence of regular expressions, read from left to right *)
Fixpoint Seqs (rs : list regex) : regex :=
  match rs with
  | [] => Lit ""
  | [r] => r
  | r :: rs' => Seq r (Seqs rs')
  end.

Definition decodeHtml (s : string) : string :=
  let s := replaceAll (Lit "&amp;") "&" s in
  let s := replaceAll (Lit "&lt;") "<" s in
  let s := replaceAll (Lit "&gt;") ">" s in
  let s := replaceAll (Lit "&quot;") DQ s in
  replaceAll (Lit "&#39;") "'" s.

(** ** Transcript segments and the two caption dialects *)

Record TranscriptSegment : Type := mkSegment {
  text : string;
  startInMs : number;
  duration : number
}.

(** [String(m[i] || '')] *)
Definition group_or_empty (i : nat) (m : caps) : string :=
  match group i m with Some s => s | None => "" end.

(** [/<text[^>]*start=\x22([^\x22]+)\x22[^>]*dur=\x22([^\x22]+)\x22[^>]*>([\s\S]*?)<\/text>/g] *)
Definition transcript_text_re : regex :=
  Seqs [ Lit "<text"; Star (Chars.is_not ">");
         Lit "start="; Lit DQ; Cap 1 (Plus (Chars.is_not dq)); Lit DQ;
         Star (Chars.is_not ">");
         Lit "dur="; Lit DQ; Cap 2 (Plus (Chars.is_not dq)); Lit DQ;
         Star (Chars.is_not ">"); Lit ">";
         Cap 3 (StarLazy Chars.is_any); Lit "</text>" ].

(** [/<p[^>]*\bt=\x22(\d+)\x22[^>]*\bd=\x22(\d+)\x22[^>]*>([\s\S]*?)<\/p>/g] *)
Definition timedtext_p_re : regex :=
  Seqs [ Lit "<p"; Star (Chars.is_not ">");
         WordB; Lit "t="; Lit DQ; Cap 1 (Plus Chars.is_digit); Lit DQ;
         Star (Chars.is_not ">");
         WordB; Lit "d="; Lit DQ; Cap 2 (Plus Chars.is_digit); Lit DQ;
         Star (Chars.is_not ">"); Lit ">";
         Cap 3 (StarLazy Chars.is_any); Lit "</p>" ].

(** [/<[^>]+>/g] *)
Definition tag_re : regex :=
  Seqs [ Lit "<"; Plus (Chars.is_not ">"); Lit ">" ].

Section Parsers.

(** [Math.round(Number(s) * 1000)] is a floating-point computation on an
    arbitrary attribute value, [NaN] when the value is no numeric literal;
    the parsers take it as a parameter. *)
Variable secondsToMs : string -> number.

(** [Math.round(Number(m[i] || 0) * 1000)] *)
Definition group_ms (i : nat) (m : caps) : number :=
  match group i m with
  | Some (String _ _ as s) => secondsToMs s
  | _ => Num 0
  end.

(** [Number(m[i] || 0)] for a group matched by [\d+] *)
Definition group_number (i : nat) (m : caps) : number :=
  match group i m with
  | Some (String _ _ as s) => Number.of_digits s
  | _ => Num 0
  end.

(** The body of the [for] loop of [parseTranscriptTexts]: what one match
    pushes. *)
Definition transcript_text_segment (m : caps) : list TranscriptSegment :=
  let text := Str.trim (decodeHtml (group_or_empty 3 m)) in
  if Str.nonempty text then
    [ {| text := text; startInMs := group_ms 1 m; duration := group_ms 2 m |} ]
  else [].

Definition parseTranscriptTexts (xml : string) : list TranscriptSegment :=
  flat_map transcript_text_segment (matchAll transcript_text_re xml).

(** The body of the [for] loop of [parseTimedtext]. *)
Definition timedtext_segment (m : caps) : list TranscriptSegment :=
  let start := group_number 1 m in
  let duration := group_number 2 m in
  let inner := group_or_empty 3 m in
  let text := Str.trim (decodeHtml (replaceAll tag_re "" inner)) in
  if Str.nonempty text then
    [ {| text := text; startInMs := start; duration := duration |} ]
  else [].

Definition parseTimedtext (xml : string) : list TranscriptSegment :=
  flat_map timedtext_segment (matchAll timedtext_p_re xml).

Definition parseSegments (xml : string) : list TranscriptSegment :=
  match parseTranscriptTexts xml with
  | [] => parseTimedtext xml
  | t1 => t1
  end.

End Parsers.

(** a text that is non-empty and free of surrounding white space *)
Definition clean_text (seg : TranscriptSegment) : Prop :=
  Str.nonempty (text seg) = true /\ Str.trim (text seg) = text seg.

(** ** [normalizeSegments] *)

(** The parameter of [normalizeSegments] is declared [TranscriptSegment[]],
    but the function guards against an element that is [null] or [undefined]
    ([None] here) and against a [text] that is not a string ([raw_text] is
    [None]). *)
Record RawSegment : Type := mkRaw {
  raw_text : option string;
  raw_startInMs : number;
  raw_duration : number
}.

Definition of_segment (s : TranscriptSegment) : option RawSegment :=
  Some {| raw_text := Some (text s);
          raw_startInMs := startInMs s;
          raw_duration := duration s |}.

(** [.filter((s) => s && typeof s.text === 'string')] followed by
    [.map((s) => ({ text: s.text.trim(), ... }))], on one element *)
Definition trimmed (item : option RawSegment) : option TranscriptSegment :=
  match item with
  | Some {| raw_text := Some t; raw_startInMs := st; raw_duration := d |} =>
      Some {| text := Str.trim t; startInMs := st; duration := d |}
  | _ => None
  end.

(** [.filter((s) => s.text.length > 0)] *)
Definition has_text (s : TranscriptSegment) : bool :=
  Nat.ltb 0 (String.length (text s)).

Definition cleaned (items : list (option RawSegment)) : list TranscriptSegment :=
  List.filter has_text (omap trimmed items).

(** The key of the [seen] set: the template literal
    [`${s.startInMs}|${s.text}`]. *)
Definition segment_key (s : TranscriptSegment) : string :=
  Number.toString (startInMs s) +:+ "|" +:+ text s.

(** The filter whose callback reads and extends [seen]. *)
Fixpoint dedup_from (seen : gset string) (l : list TranscriptSegment)
    : list TranscriptSegment :=
  match l with
  | [] => []
  | s :: l' =>
      let k := segment_key s in
      if decide (k ∈ seen) then dedup_from seen l'
      else s :: dedup_from ({[ k ]} ∪ seen) l'
  end.

(** The comparator [(a, b) => a.startInMs - b.startInMs] as the sort reads
    it: [a] need not go after [b] when the answer is negative, zero or
    [NaN] (which the sort takes for zero). *)
Definition not_after (a b : TranscriptSegment) : bool :=
  match Number.sub (startInMs a) (startInMs b) with
  | Num v => (v <=? 0)%Z
  | NaN => true
  | NegInf => true
  | PosInf => false
  end.

(** [Array.prototype.sort] with that comparator.  The built-in sort is
    stable.  When no start is [NaN] the comparator is a total preorder and
    the result is the one sorted list that keeps segments of equal start in
    their order ([SortFacts.sort_unique]); inserting from the right, each
    element before the first one that it need not go after, computes it.
    With a [NaN] start the comparator is not consistent and the language
    leaves the order to the engine.  The insertion then gives one such
    order: like the merge sort of V8, which looks for runs first, it
    returns as it is a list in which no element stands right before one
    that the comparator puts before it, and it leaves no such pair.  Which
    of the possible orders an engine gives on other lists is not modelled:
    with a [NaN] start nothing below is said of the order but these two
    facts. *)
Fixpoint insert_by_start (x : TranscriptSegment) (l : list TranscriptSegment)
    : list TranscriptSegment :=
  match l with
  | [] => [x]
  | y :: l' =>
      if not_after x y then x :: y :: l'
      else y :: insert_by_start x l'
  end.

Fixpoint sort_by_start (l : list TranscriptSegment) : list TranscriptSegment :=
  match l with
  | [] => []
  | x :: l' => insert_by_start x (sort_by_start l')
  end.

Definition normalizeSegments (items : list (option RawSegment))
    : list TranscriptSegment :=
  let dedup := dedup_from ∅ (cleaned items) in
  sort_by_start dedup.

(** *** The normalizer as the specification words it *)

(** drop segments with non-string or empty (post-trim) text; trim text *)
Definition spec_keep (item : option RawSegment) : option TranscriptSegment :=
  match item with
  | Some r =>
      match raw_text r with
      | Some t =>
          if Str.nonempty (Str.trim t)
          then Some {| text := Str.trim t; startInMs := raw_startInMs r;
                       duration := raw_duration r |}
          else None
      | None => None
      end
  | None => None
  end.

(** the composite key [(startInMs, text)] *)
Definition composite_key (s : TranscriptSegment) : number * string :=
  (startInMs s, text s).

Definition same_key (a b : TranscriptSegment) : bool :=
  bool_decide (composite_key a = composite_key b).

(** first occurrence wins, later exact duplicates are discarded *)
Fixpoint first_occurrences (l : list TranscriptSegment) : list TranscriptSegment :=
  match l with
  | [] => []
  | s :: l' => s :: List.filter (fun x => negb (same_key s x)) (first_occurrences l')
  end.

Definition le_start (a b : TranscriptSegment) : Prop :=
  Number.le (startInMs a) (startInMs b).

(** a segment whose start is [NaN] *)
Definition nan_start (s : TranscriptSegment) : Prop := startInMs s = NaN.

Definition no_nan (l : list TranscriptSegment) : Prop :=
  Forall (fun s => startInMs s <> NaN) l.

(** No element stands right before one that the comparator puts before it:
    what the sort leaves of its input whatever the starts are, and the form
    of a list that it returns as it is. *)
Definition in_order (l : list TranscriptSegment) : Prop :=
  Sorted (fun u v => not_after u v = true) l.

Definition normalizeSegments_spec (items : list (option RawSegment))
    : list TranscriptSegment :=
  sort_by_start (first_occurrences (omap spec_keep items)).

(** the segments of [l] that start at [k], in their order *)
Definition starting_at (k : number) (l : list TranscriptSegment) : list TranscriptSegment :=
  List.filter (fun s => bool_decide (startInMs s = k)) l.

(** ** Exceptions *)

(** What a [throw] carries: an [Error] with its message, or any other
    value (for which [err instanceof Error] is false). *)
Inductive exn : Type :=
| JsError (message : string)
| Thrown.

Inductive result (A : Type) : Type :=
| Ok (a : A)
| Throw (e : exn).

Arguments Ok {A} a.
Arguments Throw {A} e.

Definition rbind {A B} (r : result A) (f : A -> result B) : result B :=
  match r with
  | Ok a => f a
  | Throw e => Throw e
  end.

(** [if (c) throw new Error(msg)] *)
Definition throw_if (c : bool) (msg : string) : result unit :=
  if c then Throw (JsError msg) else Ok tt.

(** ** [assertPlayability] *)

Record PlayabilityStatus : Type := mkPlayability {
  status : option string;
  reason : option string
}.

(** [x || ''] for an optional string *)
Definition or_empty (x : option string) : string :=
  match x with Some s => s | None => "" end.

Definition assertPlayability (playabilityStatus : option PlayabilityStatus)
    : result unit :=
  let status := playabilityStatus ≫= status in
  match status with
  | None => Ok tt
  | Some status =>
      if negb (Str.nonempty status) || String.eqb status "OK" then Ok tt
      else
        let reason := or_empty (playabilityStatus ≫= reason) in
        rbind (if String.eqb status "LOGIN_REQUIRED" then
                 rbind (throw_if (Str.includes reason "not a bot")
                          "request_blocked")
                   (fun _ => throw_if (Str.includes reason "inappropriate")
                               "age_restricted")
               else Ok tt)
          (fun _ =>
        rbind (throw_if (String.eqb status "ERROR"
                         && Str.includes reason "unavailable")
                 "video_unavailable")
          (fun _ => Throw (JsError "video_unplayable")))
  end.

(** *** The rules of the guard as the specification words them *)

Definition status_of (ps : option PlayabilityStatus) : option string :=
  match ps with Some p => status p | None => None end.

Definition reason_of (ps : option PlayabilityStatus) : string :=
  match ps with
  | Some {| reason := Some r |} => r
  | _ => ""
  end.

(** missing status or status OK: pass; LOGIN_REQUIRED and a reason
    containing [not a bot]: [request_blocked]; LOGIN_REQUIRED and a reason
    containing [inappropriate]: [age_restricted]; ERROR and a reason
    containing [unavailable]: [video_unavailable]; any other status:
    [video_unplayable]. *)
Definition playability_rules (ps : option PlayabilityStatus) : result unit :=
  match status_of ps with
  | None => Ok tt
  | Some st =>
      if bool_decide (st = "OK") then Ok tt
      else if bool_decide (st = "LOGIN_REQUIRED")
              && Str.includes (reason_of ps) "not a bot"
      then Throw (JsError "request_blocked")
      else if bool_decide (st = "LOGIN_REQUIRED")
              && Str.includes (reason_of ps) "inappropriate"
      then Throw (JsError "age_restricted")
      else if bool_decide (st = "ERROR")
              && Str.includes (reason_of ps) "unavailable"
      then Throw (JsError "video_unavailable")
      else Throw (JsError "video_unplayable")
  end.

(** ** [decodeHtml] as the specification words it *)

(** One pass from left to right: an occurrence of one of the five entities
    becomes its character, anything else is copied. *)
Definition entities : list (string * string) :=
  [ ("&amp;", "&"); ("&lt;", "<"); ("&gt;", ">"); ("&quot;", DQ);
    ("&#39;", "'") ].

Fixpoint entity_at (es : list (string * string)) (s : string)
    : option (string * nat) :=
  match es with
  | [] => None
  | (e, c) :: es' =>
      if Str.startsWith s e then Some (c, String.length e)
      else entity_at es' s
  end.

Fixpoint decode_entities_from (skip : nat) (s : string) : string :=
  match s with
  | EmptyString => EmptyString
  | String c t =>
      match skip with
      | S n => decode_entities_from n t
      | O =>
          match entity_at entities s with
          | Some (ch, len) => ch +:+ decode_entities_from (len - 1) t
          | None => String c (decode_entities_from O t)
          end
      end
  end.

Definition decodeHtml_spec (s : string) : string := decode_entities_from O s.

(** ** [chooseTrack] *)

Record CaptionTrack : Type := mkTrack {
  kind : string;
  languageCode : string;
  baseUrl : string
}.

(** what [chooseTrack] returns: [{ url, lang }] *)
Record Selection : Type := mkSelection {
  url : string;
  lang : string
}.

(** [(t) => t.kind !== 'asr' && t.baseUrl] *)
Definition is_manual (t : CaptionTrack) : bool :=
  negb (String.eqb (kind t) "asr") && Str.nonempty (baseUrl t).

(** [(t) => t.kind === 'asr' && t.baseUrl] *)
Definition is_asr (t : CaptionTrack) : bool :=
  String.eqb (kind t) "asr" && Str.nonempty (baseUrl t).

(** the callback of [list.find] in [scan], for a preference [lang];
    [String(x.languageCode || '')] is [x.languageCode], a string *)
Definition lang_matches (lang : string) (x : CaptionTrack) : bool :=
  String.eqb (languageCode x) lang
  || Str.startsWith (Str.toLowerCase (languageCode x)) lang.

(** [scan]: the first preference for which [list] has a match decides *)
Fixpoint scan (prefs : list string) (list : list CaptionTrack)
    : option CaptionTrack :=
  match prefs with
  | [] => None
  | lang :: prefs' =>
      match List.find (lang_matches lang) list with
      | Some t => Some t
      | None => scan prefs' list
      end
  end.

(** [tracks[i]] for a number [i] *)
Definition track_at (tracks : list CaptionTrack) (i : Z) : option CaptionTrack :=
  if (0 <=? i)%Z then tracks !! Z.to_nat i else None.

(** [tracks[i]?.baseUrl] as a condition; when it holds the track is used *)
Definition usable_at (tracks : list CaptionTrack) (i : Z) : option CaptionTrack :=
  match track_at tracks i with
  | Some t => if Str.nonempty (baseUrl t) then Some t else None
  | None => None
  end.

(** the [for] loop over [defaultTranslationSourceTrackIndices] *)
Fixpoint first_usable (tracks : list CaptionTrack) (idxs : list Z)
    : option CaptionTrack :=
  match idxs with
  | [] => None
  | idx :: idxs' =>
      match usable_at tracks idx with
      | Some t => Some t
      | None => first_usable tracks idxs'
      end
  end.

Definition srv3 : string := "&fmt=srv3".

(** [{ url: String(t.baseUrl).replace('&fmt=srv3', ''), lang: t.languageCode }] *)
Definition selection_of (t : CaptionTrack) : Selection :=
  {| url := Str.replace (baseUrl t) srv3 ""; lang := languageCode t |}.

Definition chooseTrack (tracks : list CaptionTrack)
    (preferredLanguages : option (list string))
    (defaultCaptionTrackIndex : option Z)
    (defaultTranslationSourceTrackIndices : option (list Z))
    : option Selection :=
  let manual := List.filter is_manual tracks in
  let asr := List.filter is_asr tracks in
  let prefs :=
    List.map Str.toLowerCase
      (match preferredLanguages with Some l => l | None => [] end) in
  match orelse (scan prefs manual) (scan prefs asr) with
  | Some direct => Some (selection_of direct)
  | None =>
  match defaultCaptionTrackIndex ≫= usable_at tracks with
  | Some t => Some (selection_of t)
  | None =>
  match defaultTranslationSourceTrackIndices ≫= first_usable tracks with
  | Some t => Some (selection_of t)
  | None =>
  match manual with
  | t :: _ => Some (selection_of t)
  | [] =>
  match asr with
  | t :: _ => Some (selection_of t)
  | [] => None
  end end end end end.

(** *** Track selection as the specification words it *)

(** an exact or case-insensitive-prefix match of a preference [p] *)
Definition pref_matches (p : string) (t : CaptionTrack) : Prop :=
  languageCode t = Str.toLowerCase p
  \/ Str.startsWith (Str.toLowerCase (languageCode t)) (Str.toLowerCase p) = true.

(** [t] is the first element of [l] that satisfies [P] *)
Definition first_such {A} (P : A -> Prop) (l : list A) (t : A) : Prop :=
  exists l1 l2, l = l1 ++ t :: l2 /\ P t /\ Forall (fun x => ~ P x) l1.

(** the manual tracks: not of kind asr, with a URL *)
Definition manual_tracks (tracks : list CaptionTrack) : list CaptionTrack :=
  List.filter (fun t => bool_decide (kind t <> "asr" /\ baseUrl t <> "")) tracks.

Definition asr_tracks (tracks : list CaptionTrack) : list CaptionTrack :=
  List.filter (fun t => bool_decide (kind t = "asr" /\ baseUrl t <> "")) tracks.

(** [t] is the track that a scan of [l] in preference order finds: the first
    match, in [l], of the first preference that has a match in [l]. *)
Definition scan_choice (prefs : list string) (l : list CaptionTrack)
    (t : CaptionTrack) : Prop :=
  exists p, first_such (fun q => Exists (pref_matches q) l) prefs p
            /\ first_such (pref_matches p) l t.

(** the tracks of the example of the specification: manual es and en, asr pt *)
Definition example_tracks : list CaptionTrack :=
  [ mkTrack "" "es" "https://video.example/tt?lang=es";
    mkTrack "" "en" "https://video.example/tt?lang=en&fmt=srv3";
    mkTrack "asr" "pt" "https://video.example/tt?lang=pt&kind=asr" ].

(** [r] is [s] without its first occurrence of [p], or [s] when there is
    none *)
Definition without_first (p s r : string) : Prop :=
  (Str.includes s p = false /\ r = s)
  \/ exists a b, s = a +:+ p +:+ b /\ r = a +:+ b
                 /\ forall a1 a2, a = a1 +:+ a2 -> a2 <> "" ->
                      Str.startsWith (a2 +:+ p +:+ b) p = false.

(** ** The network, the console and the monad of the pipeline *)

Inductive Method : Type := HttpGet | HttpPost.

Record Request : Type := mkRequest {
  req_method : Method;
  req_url : string;
  req_headers : list (string * string);
  req_body : option string
}.

(** The JSON that the player endpoint answers, as far as the pipeline reads
    it and with the types its interfaces declare.  A field that is absent,
    [null] or of another type than the one read is [None]. *)
Record AudioTrack : Type := mkAudioTrack {
  defaultCaptionTrackIndex : option Z
}.

Record TracklistRenderer : Type := mkRenderer {
  captionTracks : option (list CaptionTrack);
  audioTracks : option (list AudioTrack);
  defaultTranslationSourceTrackIndices : option (list Z)
}.

Record Captions : Type := mkCaptions {
  playerCaptionsTracklistRenderer : option TracklistRenderer
}.

Record PlayerResponse : Type := mkPlayerResponse {
  playabilityStatus : option PlayabilityStatus;
  captions : option Captions
}.

(** A response: its status, and what [res.text()] and [res.json()] resolve
    to or reject with. *)
Record Response : Type := mkResponse {
  res_status : Z;
  res_text : result string;
  res_json : result (option PlayerResponse)
}.

(** [res.ok] *)
Definition res_ok (r : Response) : bool :=
  ((200 <=? res_status r) && (res_status r <=? 299))%Z.

(** The behaviour of the network: what the n-th call of [fetch] of a run
    answers to its request, a response or a rejection. *)
Definition Network : Type := nat -> Request -> result Response.

(** What a run changes: the lines written by [console.error], oldest first,
    and the number of calls of [fetch] made so far. *)
Record World : Type := mkWorld {
  console : list string;
  fetched : nat
}.

Definition M (A : Type) : Type := World -> result A * World.

Definition ret {A} (a : A) : M A := fun w => (Ok a, w).

Definition throw {A} (e : exn) : M A := fun w => (Throw e, w).

Definition bind {A B} (m : M A) (f : A -> M B) : M B :=
  fun w =>
    match m w with
    | (Ok a, w') => f a w'
    | (Throw e, w') => (Throw e, w')
    end.

Definition lift {A} (r : result A) : M A := fun w => (r, w).

(** [try { body } catch (err) { handler }] *)
Definition try_catch {A} (body : M A) (handler : exn -> M A) : M A :=
  fun w =>
    match body w with
    | (Ok a, w') => (Ok a, w')
    | (Throw e, w') => handler e w'
    end.

Definition console_error (line : string) : M unit :=
  fun w => (Ok tt, {| console := console w ++ [line]; fetched := fetched w |}).

Notation "'await' x ':=' m 'in' k" := (bind m (fun x => k))
  (at level 10, x name, m at level 100, k at level 200).
Notation "'after' m 'do' k" := (bind m (fun _ => k))
  (at level 10, m at level 100, k at level 200).

(** [export const logError] *)
Definition log_line (category message : string) : string :=
  "[" +:+ category +:+ "] " +:+ message.

Definition logError (category message : string) : M unit :=
  console_error (log_line category message).

(** a string that is not falsy *)
Definition truthy (o : option string) : option string :=
  match o with
  | Some (String _ _ as s) => Some s
  | _ => None
  end.

(** [/\x22INNERTUBE_API_KEY\x22:\s*\x22([a-zA-Z0-9_-]+)\x22/] *)
Definition api_key_re : regex :=
  Seqs [ Lit DQ; Lit "INNERTUBE_API_KEY"; Lit DQ; Lit ":";
         Star Chars.is_space; Lit DQ; Cap 1 (Plus Chars.is_key_char); Lit DQ ].

Definition extractInnertubeApiKey (html : string) : option string :=
  match exec api_key_re html with
  | Some m => group 1 m
  | None => None
  end.

(** [/name=\x22v\x22 value=\x22(.*?)\x22/] *)
Definition consent_v_re : regex :=
  Seqs [ Lit "name="; Lit DQ; Lit "v"; Lit DQ; Lit " value="; Lit DQ;
         Cap 1 (StarLazy Chars.is_dot); Lit DQ ].

(** [action=\x22https://consent.youtube.com/s\x22] *)
Definition consent_marker : string :=
  "action=" +:+ DQ +:+ "https://consent.youtube.com/s" +:+ DQ.

Definition accept_language : string * string := ("Accept-Language", "en-US").

(** [JSON.stringify({ context: { client: { clientName: 'ANDROID',
    clientVersion: '20.10.38' } }, videoId })] for an identifier free of
    characters that JSON escapes *)
Definition player_body (videoId : string) : string :=
  let q (s : string) := DQ +:+ s +:+ DQ in
  "{" +:+ q "context" +:+ ":{" +:+ q "client" +:+ ":{"
  +:+ q "clientName" +:+ ":" +:+ q "ANDROID" +:+ ","
  +:+ q "clientVersion" +:+ ":" +:+ q "20.10.38" +:+ "}},"
  +:+ q "videoId" +:+ ":" +:+ q videoId +:+ "}".

(** the five categories of the taxonomy *)
Definition categories : list string :=
  [ "invalid_url"; "inaccessible"; "no_captions"; "network_error";
    "other_error" ].

Record TranscriptYtArgs : Type := mkArgs {
  videoUrl : string;
  preferredLanguages : option (list string)
}.

(** [{ category, message }] *)
Record ErrorRecord : Type := mkErrorRecord {
  category : string;
  message : string
}.


(** [import { transcriptYt, lastError } from '../../lib/fetch-youtube']:
    the module has no export and no binding of the name [lastError]
    ([logError] writes to the console and stores nothing).  Where the
    handler runs at all, that is under [LenientLinking], what it reads
    under that name is [undefined]; [GET] below is the handler of that
    case, and [api_route] says when there is one. *)
Definition lastError : option ErrorRecord := None.

(** The JSON bodies of the three answers of the handler. *)
Inductive ApiBody : Type :=
| MessageBody (message : string)
| NoTranscriptBody (message : string) (reason category : option string)
| TranscriptionBody (transcription : string).

Record ApiResponse : Type := mkApiResponse {
  api_status : Z;
  api_body : ApiBody
}.

Section Pipeline.

(** [Math.round(Number(s) * 1000)], see [Parsers] *)
Variable secondsToMs : string -> number.

Variable net : Network.

(** [await fetch(url, init)] *)
Definition fetch (req : Request) : M Response :=
  fun w =>
    (net (fetched w) req,
     {| console := console w; fetched := S (fetched w) |}).

Definition fetchText (url : string) (headers : list (string * string))
    : M string :=
  await res := fetch (mkRequest HttpGet url headers None) in
  if negb (res_ok res) then throw (JsError (pretty (res_status res)))
  else lift (res_text res).

Definition fetchWatchHtml (videoId : string)
    (fetchImpl : string -> list (string * string) -> M string) : M string :=
  let url := "https://www.youtube.com/watch?v=" +:+ videoId in
  await html := fetchImpl url [accept_language] in
  if Str.includes html consent_marker then
    match exec consent_v_re html with
    | None => throw (JsError "consent_cookie_create_failed")
    | Some v =>
        await html := fetchImpl url
                  [ accept_language;
                    ("Cookie", "CONSENT=YES+" +:+ group_or_empty 1 v) ] in
        if Str.includes html consent_marker
        then throw (JsError "consent_cookie_invalid")
        else ret html
    end
  else ret html.

Definition fetchInnertubePlayer (apiKey videoId : string)
    : M (option PlayerResponse) :=
  let url := "https://www.youtube.com/youtubei/v1/player?key=" +:+ apiKey in
  await res := fetch (mkRequest HttpPost url
                  [ ("Content-Type", "application/json"); accept_language ]
                  (Some (player_body videoId))) in
  if (res_status res =? 429)%Z then throw (JsError "ip_blocked")
  else if negb (res_ok res)
       then throw (JsError ("yt_request_failed_" +:+ pretty (res_status res)))
       else lift (res_json res).

(** the [fetch(picked.url, ...).then(...)] of [transcriptYt] *)
Definition fetchCaptions (url : string) : M string :=
  await r := fetch (mkRequest HttpGet url [accept_language] None) in
  if negb (res_ok r)
  then throw (JsError ("yt_request_failed_" +:+ pretty (res_status r)))
  else lift (res_text r).

(** the [try] block of [transcriptYt] *)
Definition transcriptYt_try (args : TranscriptYtArgs)
    : M (option (list TranscriptSegment)) :=
  match truthy (extractVideoId (videoUrl args)) with
  | None =>
      after logError "invalid_url" "unable_to_extract_video_id" do ret None
  | Some id =>
  await html := fetchWatchHtml id fetchText in
  match truthy (extractInnertubeApiKey html) with
  | None =>
      after logError "inaccessible" "innertube_api_key_not_found" do ret None
  | Some apiKey =>
  await data := fetchInnertubePlayer apiKey id in
  after lift (assertPlayability (data ≫= playabilityStatus)) do
  let renderer : option TracklistRenderer :=
    (data ≫= captions) ≫= playerCaptionsTracklistRenderer in
  let tracks := default [] (renderer ≫= captionTracks) in
  let audioTracks := default [] (renderer ≫= audioTracks) in
  let defaultCaptionTrackIndex : option Z :=
    List.head audioTracks ≫= defaultCaptionTrackIndex in
  let defaultTranslationSourceTrackIndices :=
    renderer ≫= defaultTranslationSourceTrackIndices in
  match tracks with
  | [] => after logError "no_captions" "no_caption_tracks_found" do ret None
  | _ :: _ =>
  match chooseTrack tracks (preferredLanguages args)
          defaultCaptionTrackIndex defaultTranslationSourceTrackIndices with
  | None => after logError "no_captions" "no_suitable_track_found" do ret None
  | Some picked =>
  await xml := fetchCaptions (url picked) in
  let segments :=
    normalizeSegments (of_segment <$> parseSegments secondsToMs xml) in
  match segments with
  | [] => after logError "no_captions" "no_segments_after_parsing" do ret None
  | _ :: _ => ret (Some segments)
  end end end end end.

(** the [catch] block of [transcriptYt] *)
Definition transcriptYt_catch (err : exn)
    : M (option (list TranscriptSegment)) :=
  let msg := match err with JsError m => m | Thrown => "" end in
  after
  (if Str.includes msg "yt_request_failed_" || String.eqb msg "ip_blocked"
   then logError "network_error" msg
   else if String.eqb msg "video_unavailable"
           || String.eqb msg "video_unplayable"
           || String.eqb msg "age_restricted"
           || String.eqb msg "request_blocked"
   then logError "inaccessible" msg
   else logError "other_error"
          (if Str.nonempty msg then msg else "unexpected_error"))
  do ret None.

Definition transcriptYt (args : TranscriptYtArgs)
    : M (option (list TranscriptSegment)) :=
  try_catch (transcriptYt_try args) transcriptYt_catch.

(** [GET] of [src/pages/api/youtube.ts]; its argument is
    [url.searchParams.get('videoUrl')]. *)
Definition GET (videoUrl : option string) : M ApiResponse :=
  match truthy videoUrl with
  | None => ret (mkApiResponse 400 (MessageBody "Video URL is required"))
  | Some videoUrl =>
      await transcription := transcriptYt (mkArgs videoUrl (Some ["pt"; "en"])) in
      let textOnlyTranscription :=
        fold_left (fun acc track => acc +:+ " " +:+ text track)
                  (default [] transcription) "" in
      if negb (Str.nonempty textOnlyTranscription) then
        ret (mkApiResponse 404
               (NoTranscriptBody "No transcript available."
                  (message <$> lastError) (category <$> lastError)))
      else
        ret (mkApiResponse 200 (TranscriptionBody textOnlyTranscription))
  end.

End Pipeline.


(** a computation that writes nothing to the console *)
Definition quiet {A} (m : M A) : Prop :=
  forall w, console (snd (m w)) = console w.

(** How a run of the [try] block that started with the console [c] can end:
    one line logged under one of the five categories and [null] returned, a
    non-empty list returned (sorted, unless a start is [NaN]) and nothing
    logged, or an exception and nothing logged. *)
Definition try_outcome (c : list string)
    (rw : result (option (list TranscriptSegment)) * World) : Prop :=
  (exists cat msg, fst rw = Ok None /\ cat ∈ categories
                   /\ console (snd rw) = c ++ [log_line cat msg])
  \/ (exists segs, fst rw = Ok (Some segs) /\ segs <> []
                   /\ (Exists nan_start segs \/ StronglySorted le_start segs)
                   /\ console (snd rw) = c)
  \/ (exists e, fst rw = Throw e /\ console (snd rw) = c).

(** ** What a match is *)

(** [sem r a cs]: the text [a] is matched by [r], the groups capturing [cs]
    (latest first).  The condition of [\b] on the neighbouring characters is
    left out: the relation bounds what a match can be. *)
Fixpoint sem (r : regex) (a : string) (cs : caps) : Prop :=
  match r with
  | Lit l => a = l /\ cs = []
  | Cls p => exists c, a = String c EmptyString /\ p c = true /\ cs = []
  | Seq r1 r2 =>
      exists a1 a2 c1 c2,
        a = a1 +:+ a2 /\ sem r1 a1 c1 /\ sem r2 a2 c2 /\ cs = c2 ++ c1
  | Alt r1 r2 => sem r1 a cs \/ sem r2 a cs
  | Opt r1 => sem r1 a cs \/ (a = EmptyString /\ cs = [])
  | Star p => StrPred.all p a = true /\ cs = []
  | StarLazy p => StrPred.all p a = true /\ cs = []
  | Cap i r1 => exists c1, sem r1 a c1 /\ cs = (i, a) :: c1
  | WordB => a = EmptyString /\ cs = []
  end.

(** [a] occurs in [s], matched by [r] with the captures [cs] *)
Definition occurs (r : regex) (s : string) (cs : caps) : Prop :=
  exists pre a post, s = pre +:+ a +:+ post /\ sem r a cs.

(** ** Requests and counts used in statements *)

(** a computation that calls [fetch] at least [lo] and at most [hi] times *)
Definition fetches {A} (lo hi : nat) (m : M A) : Prop :=
  forall w, fetched w + lo <= fetched (snd (m w)) <= fetched w + hi.

(** the first request of [fetchWatchHtml] *)
Definition watch_request (videoId : string) : Request :=
  mkRequest HttpGet ("https://www.youtube.com/watch?v=" +:+ videoId)
    [accept_language] None.

(** the request of [fetchInnertubePlayer] *)
Definition player_request (apiKey videoId : string) : Request :=
  mkRequest HttpPost
    ("https://www.youtube.com/youtubei/v1/player?key=" +:+ apiKey)
    [ ("Content-Type", "application/json"); accept_language ]
    (Some (player_body videoId)).

(** the request for the caption document of a selection *)
Definition captions_request (sel : Selection) : Request :=
  mkRequest HttpGet (url sel) [accept_language] None.

(** the four messages of [assertPlayability] *)
Definition playability_messages : list string :=
  [ "request_blocked"; "age_restricted"; "video_unavailable";
    "video_unplayable" ].

(** the state after [n] more calls of [fetch] and the lines [ls] logged *)
Definition advanced (w : World) (n : nat) (ls : list string) : World :=
  {| console := console w ++ ls; fetched := fetched w + n |}.

(** a page answered 2xx with the text [html], which shows no consent form
    and holds the API key [key] *)
Definition page_served (net : Network) (w : World) (id html key : string)
    : Prop :=
  exists resp,
    net (fetched w) (watch_request id) = Ok resp
    /\ res_ok resp = true /\ res_text resp = Ok html
    /\ Str.includes html consent_marker = false
    /\ extractInnertubeApiKey html = Some key.

(** the characters of a printed integer *)
Definition is_number_char (c : ascii) : bool :=
  Chars.is_digit c || Ascii.eqb c "-".

(** the player endpoint answered 2xx with the JSON [data] to the second
    call of the run *)
Definition player_served (net : Network) (w : World) (key id : string)
    (data : option PlayerResponse) : Prop :=
  exists resp,
    net (fetched w + 1) (player_request key id) = Ok resp
    /\ res_ok resp = true /\ res_json resp = Ok data.

(** what [transcriptYt] reads in the player answer *)
Definition renderer_of (data : option PlayerResponse) : option TracklistRenderer :=
  (data ≫= captions) ≫= playerCaptionsTracklistRenderer.

Definition tracks_of (data : option PlayerResponse) : list CaptionTrack :=
  default [] (renderer_of data ≫= captionTracks).

Definition default_index_of (data : option PlayerResponse) : option Z :=
  List.head (default [] (renderer_of data ≫= audioTracks))
    ≫= defaultCaptionTrackIndex.

Definition source_indices_of (data : option PlayerResponse) : option (list Z) :=
  renderer_of data ≫= defaultTranslationSourceTrackIndices.

(** the selection that [transcriptYt] makes in the player answer *)
Definition picked_of (args : TranscriptYtArgs) (data : option PlayerResponse)
    : option Selection :=
  chooseTrack (tracks_of data) (preferredLanguages args)
    (default_index_of data) (source_indices_of data).

(** what the [try] block does once the player has answered [data] *)
Definition after_player (secondsToMs : string -> number) (net : Network)
    (args : TranscriptYtArgs) (data : option PlayerResponse)
    : M (option (list TranscriptSegment)) :=
  after lift (assertPlayability (data ≫= playabilityStatus)) do
  match tracks_of data with
  | [] => after logError "no_captions" "no_caption_tracks_found" do ret None
  | _ :: _ =>
  match picked_of args data with
  | None => after logError "no_captions" "no_suitable_track_found" do ret None
  | Some picked =>
  await xml := fetchCaptions net (url picked) in
  match normalizeSegments (of_segment <$> parseSegments secondsToMs xml) with
  | [] => after logError "no_captions" "no_segments_after_parsing" do ret None
  | s :: segs => ret (Some (s :: segs))
  end end end.

(** the caption document of a selection was served as the third call *)
Definition captions_served (net : Network) (w : World) (sel : Selection)
    (xml : string) : Prop :=
  exists resp,
    net (fetched w + 2) (captions_request sel) = Ok resp
    /\ res_ok resp = true /\ res_text resp = Ok xml.

(** *** A small network for examples *)

Definition example_key : string := "AIza_Key-1".

(** a watch page that holds the key [example_key] *)
Definition example_page : string :=
  "<script>ytcfg.set({" +:+ DQ +:+ "INNERTUBE_API_KEY" +:+ DQ +:+ ": "
  +:+ DQ +:+ example_key +:+ DQ +:+ "});</script>".

(** a player answer that offers [tracks] *)
Definition example_data (ps : option PlayabilityStatus)
    (tracks : list CaptionTrack) : option PlayerResponse :=
  Some (mkPlayerResponse ps
          (Some (mkCaptions (Some (mkRenderer (Some tracks) None None))))).

(** a caption document of the second dialect *)
Definition example_xml : string :=
  "<timedtext><body><p t=" +:+ DQ +:+ "1500" +:+ DQ +:+ " d=" +:+ DQ
  +:+ "2000" +:+ DQ +:+ ">Hi &amp; bye</p></body></timedtext>".

(** the network that serves [example_page] first, then [player], then
    [document] *)
Definition example_net (player document : Response) : Network :=
  fun n _ =>
    match n with
    | O => Ok (mkResponse 200 (Ok example_page) (Throw Thrown))
    | S O => Ok player
    | _ => Ok document
    end.

Definition example_args : TranscriptYtArgs :=
  mkArgs "https://youtu.be/dQw4w9WgXcQ" (Some ["pt"; "en"]).

Definition json_response (st : Z) (data : option PlayerResponse) : Response :=
  mkResponse st (Throw Thrown) (Ok data).

Definition text_response (st : Z) (body : string) : Response :=
  mkResponse st (Ok body) (Throw Thrown).

(** a caption document of the first dialect in which the start of the
    second element is no number *)
Definition example_nan_xml : string :=
  "<transcript><text start=" +:+ DQ +:+ "3" +:+ DQ +:+ " dur=" +:+ DQ
  +:+ "1" +:+ DQ +:+ ">a</text><text start=" +:+ DQ +:+ "abc" +:+ DQ
  +:+ " dur=" +:+ DQ +:+ "1" +:+ DQ +:+ ">n</text><text start=" +:+ DQ
  +:+ "1" +:+ DQ +:+ " dur=" +:+ DQ +:+ "1" +:+ DQ
  +:+ ">b</text></transcript>".

(** [Math.round(Number(s) * 1000)] on the attribute values of
    [example_nan_xml]: 3000 for 3, 1000 for 1 and, [Number] of abc being
    [NaN], [NaN] for abc.  The examples apply it to these three values
    only. *)
Definition example_secondsToMs (s : string) : number :=
  if String.eqb s "3" then Num 3000
  else if String.eqb s "1" then Num 1000
  else NaN.

(** an index that designates an element of [tracks] *)
Definition in_bounds (tracks : list CaptionTrack) (i : Z) : bool :=
  ((0 <=? i) && (i <? Z.of_nat (length tracks)))%Z.

(** ** Where a parsed segment comes from *)



(** [seg] is an element of [items] with its text trimmed *)
Definition from_item (items : list (option RawSegment))
    (seg : TranscriptSegment) : Prop :=
  exists r t,
    Some r ∈ items /\ raw_text r = Some t
    /\ seg = {| text := Str.trim t; startInMs := raw_startInMs r;
                duration := raw_duration r |}.



(** the second request of [fetchWatchHtml], carrying the consent cookie *)
Definition consent_request (videoId token : string) : Request :=
  mkRequest HttpGet ("https://www.youtube.com/watch?v=" +:+ videoId)
    [ accept_language; ("Cookie", "CONSENT=YES+" +:+ token) ] None.

(** a page answered 2xx to the n-th call of the run, showing the consent
    form *)
Definition consent_wall (net : Network) (n : nat) (req : Request)
    (html : string) : Prop :=
  exists resp,
    net n req = Ok resp /\ res_ok resp = true /\ res_text resp = Ok html
    /\ Str.includes html consent_marker = true.

(** a page that shows the consent form, with and without the token [v] *)
Definition example_consent_page (token : option string) : string :=
  "<form " +:+ consent_marker +:+ ">"
  +:+ match token with
      | Some v => "<input name=" +:+ DQ +:+ "v" +:+ DQ +:+ " value=" +:+ DQ
                  +:+ v +:+ DQ +:+ ">"
      | None => EmptyString
      end
  +:+ "</form>".

(** * Properties *)

(** * Sanity checks by evaluation *)

Example extractVideoId_watch :
  extractVideoId "https://www.youtube.com/watch?v=dQw4w9WgXcQ&t=3"
  = Some "dQw4w9WgXcQ".
Proof. vm_compute. reflexivity. Qed.

Example extractVideoId_short :
  extractVideoId "see youtu.be/abc_DEF-123 now" = Some "abc_DEF-123".
Proof. vm_compute. reflexivity. Qed.

Example extractVideoId_none :
  extractVideoId "https://example.com/watch?v=dQw4w9WgXcQ" = None.
Proof. vm_compute. reflexivity. Qed.

Example decodeHtml_five :
  decodeHtml "a &amp; b &lt;i&gt; &quot;c&quot; it&#39;s &nbsp;"
  = "a & b <i> " +:+ DQ +:+ "c" +:+ DQ +:+ " it's &nbsp;".
Proof. vm_compute. reflexivity. Qed.

Example parseTimedtext_sample :
  parseTimedtext
    ("<timedtext><body><p t=" +:+ DQ +:+ "1500" +:+ DQ +:+ " d=" +:+ DQ
     +:+ "2000" +:+ DQ +:+ ">Hi <b>&amp;</b> bye </p><p t=" +:+ DQ +:+ "9"
     +:+ DQ +:+ " d=" +:+ DQ +:+ "1" +:+ DQ +:+ "> </p></body></timedtext>")
  = [ {| text := "Hi & bye"; startInMs := Num 1500; duration := Num 2000 |} ].
Proof. vm_compute. reflexivity. Qed.

(** [Number] of a run of digits: exact up to 2^53, then rounded to the
    nearest double, ties to even, [Infinity] from 2^1024 on; the same values
    as the Standard Library's rounding to binary64. *)
Example of_digits_exact :
  Number.of_digits "9007199254740992" = Num 9007199254740992.
Proof. vm_compute. reflexivity. Qed.

Example of_digits_rounds_down :
  Number.of_digits "9007199254740993" = Num 9007199254740992.
Proof. vm_compute. reflexivity. Qed.

Example of_digits_rounds_up :
  Number.of_digits "9007199254740995" = Num 9007199254740996.
Proof. vm_compute. reflexivity. Qed.

Example of_digits_overflows :
  Number.of_digits ("1" +:+ string_of_list_ascii (repeat "0"%char 309))
  = PosInf.
Proof. vm_compute. reflexivity. Qed.

Example of_integer_agrees_with_ieee :
  Forall (fun z => Number.of_integer z = Number.of_integer_ieee z)
    [0; 7; 1500; -3; 2 ^ 53; 2 ^ 53 + 1; 2 ^ 53 + 3; 2 ^ 54 + 2; 2 ^ 54 + 6;
     10 ^ 21 + 1; 10 ^ 30 + 12345; -(10 ^ 30) - 12345;
     2 ^ 1024 - 2 ^ 971; 2 ^ 1024 - 2 ^ 970 - 1; 2 ^ 1024 - 2 ^ 970;
     2 ^ 1024; 10 ^ 400; -(10 ^ 400)]%Z.
Proof. repeat constructor; vm_compute; reflexivity. Qed.

Example parseSegments_dialect_a :
  parseSegments (fun _ => Num 1500)
    ("<transcript><text start=" +:+ DQ +:+ "1.5" +:+ DQ +:+ " dur=" +:+ DQ
     +:+ "2.0" +:+ DQ +:+ ">Hi &amp; bye</text></transcript>")
  = [ {| text := "Hi & bye"; startInMs := Num 1500; duration := Num 1500 |} ].
Proof. vm_compute. reflexivity. Qed.

(** ** Facts about strings *)

Module StrFacts.

Import StrPred.

Lemma app_nil_r (s : string) : s +:+ "" = s.
Proof. induction s as [|c s IH]; simpl; [reflexivity | now rewrite IH]. Qed.

Lemma app_assoc (a b c : string) : (a +:+ b) +:+ c = a +:+ (b +:+ c).
Proof. induction a as [|x a IH]; simpl; [reflexivity | now rewrite IH]. Qed.

Lemma length_app (a b : string) :
  String.length (a +:+ b) = String.length a + String.length b.
Proof. induction a as [|x a IH]; simpl; [reflexivity | now rewrite IH]. Qed.

Lemma take_app (a b : string) : Str.take (String.length a) (a +:+ b) = a.
Proof. induction a as [|x a IH]; simpl; [now destruct b | now rewrite IH]. Qed.

Lemma consumed_app (a b : string) : consumed (a +:+ b) b = a.
Proof.
  unfold consumed. rewrite length_app.
  replace (String.length a + String.length b - String.length b)
    with (String.length a) by lia.
  apply take_app.
Qed.

End StrFacts.

(** ** Facts about the matcher *)

Module RegexFacts.

Import StrPred StrFacts.

Lemma lit_app {R} (l s : string) prev cs (k : cont R) :
  lit l prev (l +:+ s) cs k = k (last l prev) s cs.
Proof.
  revert prev. induction l as [|a l IH]; intros prev; simpl; [reflexivity|].
  rewrite Ascii.eqb_refl. apply IH.
Qed.


End RegexFacts.

(** ** C8: the supported URL shapes *)






(** ** [trim] *)

Module TrimFacts.

Lemma trimEnd_cons_nonspace (c : ascii) (t : string) :
  Chars.is_space c = false ->
  Str.trimEnd (String c t) = String c (Str.trimEnd t).
Proof.
  intros Hc. simpl. rewrite Hc. now destruct (Str.trimEnd t).
Qed.

Lemma trimEnd_idem (s : string) : Str.trimEnd (Str.trimEnd s) = Str.trimEnd s.
Proof.
  induction s as [|c t IH]; [reflexivity|].
  simpl. destruct (Str.trimEnd t) as [|d t'] eqn:Et.
  - destruct (Chars.is_space c) eqn:Ec; [reflexivity|].
    simpl. now rewrite Ec.
  - change (Str.trimEnd (String c (String d t')) = String c (String d t')).
    cbn [Str.trimEnd] in IH |- *.
    destruct (Str.trimEnd t') as [|e t'']; destruct (Chars.is_space d);
      try discriminate IH; try injection IH as IH; try rewrite IH; reflexivity.
Qed.

(** What [trimStart] leaves is empty or starts with a character that is not
    white space. *)
Lemma trimStart_head (s : string) :
  Str.trimStart s = EmptyString
  \/ exists c t, Str.trimStart s = String c t /\ Chars.is_space c = false.
Proof.
  induction s as [|c t IH]; [now left|].
  simpl. destruct (Chars.is_space c) eqn:Ec; [exact IH|].
  right. now exists c, t.
Qed.

Lemma trim_idem (s : string) : Str.trim (Str.trim s) = Str.trim s.
Proof.
  unfold Str.trim.
  destruct (trimStart_head s) as [-> | (c & t & -> & Hc)]; [reflexivity|].
  rewrite (trimEnd_cons_nonspace c t Hc).
  cbn [Str.trimStart]. rewrite Hc.
  rewrite <- (trimEnd_cons_nonspace c t Hc). apply trimEnd_idem.
Qed.

End TrimFacts.

(** ** C10: what the dialect parsers push *)

Lemma transcript_text_segment_clean secondsToMs (m : caps) :
  Forall clean_text (transcript_text_segment secondsToMs m).
Proof.
  unfold transcript_text_segment.
  destruct (Str.nonempty _) eqn:Hne; constructor; [|constructor].
  split; [exact Hne | apply TrimFacts.trim_idem].
Qed.

Lemma timedtext_segment_clean (m : caps) :
  Forall clean_text (timedtext_segment m).
Proof.
  unfold timedtext_segment.
  destruct (Str.nonempty _) eqn:Hne; constructor; [|constructor].
  split; [exact Hne | apply TrimFacts.trim_idem].
Qed.

Lemma Forall_flat_map {A B} (P : B -> Prop) (f : A -> list B) (l : list A) :
  (forall a, Forall P (f a)) -> Forall P (flat_map f l).
Proof.
  intros Hf. induction l as [|a l IH]; simpl; [constructor|].
  apply Forall_app. split; [apply Hf | exact IH].
Qed.

Lemma parseTranscriptTexts_clean secondsToMs (xml : string) :
  Forall clean_text (parseTranscriptTexts secondsToMs xml).
Proof.
  apply Forall_flat_map. apply transcript_text_segment_clean.
Qed.

Lemma parseTimedtext_clean (xml : string) :
  Forall clean_text (parseTimedtext xml).
Proof. apply Forall_flat_map. apply timedtext_segment_clean. Qed.

(** C10. Every segment that [parseSegments] produces, through either dialect
    parser, has a text that is non-empty and already trimmed. *)
Theorem parseSegments_text_clean secondsToMs (xml : string) :
  Forall (fun seg => Str.nonempty (text seg) = true
                     /\ Str.trim (text seg) = text seg)
         (parseSegments secondsToMs xml)
  /\ Forall clean_text (parseTranscriptTexts secondsToMs xml)
  /\ Forall clean_text (parseTimedtext xml).
Proof.
  split; [|split].
  - unfold parseSegments.
    pose proof (parseTranscriptTexts_clean secondsToMs xml) as H1.
    destruct (parseTranscriptTexts secondsToMs xml);
      [apply parseTimedtext_clean | exact H1].
  - apply parseTranscriptTexts_clean.
  - apply parseTimedtext_clean.
Qed.


(** ** Printed numbers *)

Module NumFacts.

Import StrPred.

Lemma pretty_N_char_number (n : N) : is_number_char (pretty_N_char n) = true.
Proof. unfold pretty_N_char. repeat case_match; reflexivity. Qed.

Lemma pretty_N_go_number (x : N) (s : string) :
  all is_number_char s = true -> all is_number_char (pretty_N_go x s) = true.
Proof.
  revert s. induction (N.lt_wf_0 x) as [x _ IH]; intros s Hs.
  destruct (decide (x = 0)%N) as [-> | Hx]; [now rewrite pretty_N_go_0|].
  rewrite pretty_N_go_step by lia.
  apply IH; [apply N.div_lt; lia|]. simpl. now rewrite pretty_N_char_number.
Qed.

Lemma pretty_N_go_length (x : N) (s : string) :
  String.length s <= String.length (pretty_N_go x s).
Proof.
  revert s. induction (N.lt_wf_0 x) as [x _ IH]; intros s.
  destruct (decide (x = 0)%N) as [-> | Hx]; [now rewrite pretty_N_go_0|].
  rewrite pretty_N_go_step by lia.
  etransitivity; [|apply IH, N.div_lt; lia]. simpl. lia.
Qed.

Lemma pretty_N_shape (x : N) :
  all is_number_char (pretty x) = true /\ pretty x <> "".
Proof.
  unfold pretty, pretty_N. case_decide as Hx; [now split|]. split.
  - now apply pretty_N_go_number.
  - rewrite pretty_N_go_step by lia.
    pose proof (pretty_N_go_length (x `div` 10)
                  (String (pretty_N_char (x `mod` 10)) "")) as H.
    intros E. rewrite E in H. simpl in H. lia.
Qed.

(** A printed integer is a non-empty run of digits and the minus sign. *)
Lemma pretty_Z_shape (z : Z) :
  all is_number_char (pretty z) = true /\ pretty z <> "".
Proof.
  destruct z as [|p|p]; unfold pretty, pretty_Z.
  - now split.
  - apply (pretty_N_shape (N.pos p)).
  - destruct (pretty_N_shape (N.pos p)) as [H _]. split; [|discriminate].
    simpl. exact H.
Qed.

Lemma all_not_startsWith (P : ascii -> bool) (s l : string) (a : ascii) :
  all P s = true -> P a = false -> Str.startsWith s (String a l) = false.
Proof.
  intros Hs Ha. unfold Str.startsWith. destruct s as [|c s]; [reflexivity|].
  simpl. destruct (Ascii.eqb_spec a c) as [-> | _]; [|reflexivity].
  simpl in Hs. rewrite Ha in Hs. discriminate Hs.
Qed.

Lemma all_not_includes (P : ascii -> bool) (s l : string) (a : ascii) :
  all P s = true -> P a = false -> Str.includes s (String a l) = false.
Proof.
  intros Hs Ha. induction s as [|c s IH].
  - reflexivity.
  - cbn [Str.includes]. rewrite (all_not_startsWith P) by assumption.
    simpl in Hs. apply andb_true_iff in Hs as [_ Hs]. now apply IH.
Qed.

Lemma all_not_eqb (P : ascii -> bool) (s t : string) :
  all P s = true -> all P t = false -> String.eqb s t = false.
Proof.
  intros Hs Ht. apply String.eqb_neq. congruence.
Qed.

End NumFacts.

(** ** The key of the [seen] set *)

Module KeyFacts.

Import StrPred.

Lemma pretty_N_char_not_bar (n : N) : not_bar (pretty_N_char n) = true.
Proof. unfold pretty_N_char. repeat case_match; reflexivity. Qed.

Lemma pretty_N_go_not_bar (x : N) (s : string) :
  all not_bar s = true -> all not_bar (pretty_N_go x s) = true.
Proof.
  revert s. induction (N.lt_wf_0 x) as [x _ IH]; intros s Hs.
  destruct (decide (x = 0)%N) as [-> | Hx].
  - now rewrite pretty_N_go_0.
  - rewrite pretty_N_go_step by lia.
    apply IH; [apply N.div_lt; lia|].
    simpl. now rewrite pretty_N_char_not_bar.
Qed.

Lemma pretty_N_not_bar (x : N) : all not_bar (pretty x) = true.
Proof.
  unfold pretty, pretty_N. case_decide; [reflexivity|].
  now apply pretty_N_go_not_bar.
Qed.

Lemma pretty_Z_not_bar (z : Z) : all not_bar (pretty z) = true.
Proof.
  destruct z as [|p|p]; unfold pretty, pretty_Z.
  - reflexivity.
  - apply pretty_N_not_bar.
  - simpl. apply (pretty_N_not_bar (N.pos p)).
Qed.

(** Two strings free of the separator, each followed by the separator, are
    recovered from the concatenation. *)
Lemma bar_split (a b x y : string) :
  all not_bar a = true -> all not_bar b = true ->
  a +:+ "|" +:+ x = b +:+ "|" +:+ y -> a = b /\ x = y.
Proof.
  revert b. induction a as [|c a IH]; intros [|d b] Ha Hb H; simpl in *.
  - now injection H as ->.
  - injection H as <- _. discriminate Hb.
  - injection H as -> _. discriminate Ha.
  - injection H as -> H.
    apply andb_true_iff in Ha as [_ Ha]. apply andb_true_iff in Hb as [_ Hb].
    destruct (IH b Ha Hb H) as [-> ->]. split; reflexivity.
Qed.

Lemma toString_not_bar (n : number) : all not_bar (Number.toString n) = true.
Proof. destruct n; [apply pretty_Z_not_bar | reflexivity..]. Qed.

(** Different numbers print differently. *)
Lemma toString_inj (a b : number) :
  Number.toString a = Number.toString b -> a = b.
Proof.
  assert (forall (z : Z) s, StrPred.all is_number_char s = false -> pretty z <> s)
    as Hne.
  { intros z s Hs E. destruct (NumFacts.pretty_Z_shape z) as [Hz _]. congruence. }
  destruct a as [x| | |], b as [y| | |]; simpl; intros H;
    try reflexivity; try discriminate H;
    try (now apply (inj pretty) in H as ->);
    try (now apply Hne in H); symmetry in H; now apply Hne in H.
Qed.

Lemma segment_key_inj (a b : TranscriptSegment) :
  segment_key a = segment_key b <-> composite_key a = composite_key b.
Proof.
  unfold segment_key, composite_key. split.
  - intros H. apply bar_split in H as [Hz ->]; try apply toString_not_bar.
    now apply toString_inj in Hz as ->.
  - now intros [= -> ->].
Qed.

End KeyFacts.

(** ** The sort *)

Module SortFacts.

(** *** The comparator *)

Lemma le_trans (a b c : number) : Number.le a b -> Number.le b c -> Number.le a c.
Proof. destruct a, b, c; simpl; try tauto; lia. Qed.

Lemma not_after_le x y :
  startInMs x <> NaN -> startInMs y <> NaN ->
  not_after x y = true -> le_start x y.
Proof.
  unfold not_after, le_start.
  destruct (startInMs x), (startInMs y); simpl; try congruence; try tauto.
  intros _ _ H. apply Z.leb_le in H. lia.
Qed.

(** When [x] has to go after [y], [y] starts earlier; the starts differ,
    none is [NaN], and [y] need not go after [x]. *)
Lemma not_after_false x y :
  not_after x y = false ->
  le_start y x /\ startInMs x <> startInMs y /\ not_after y x = true.
Proof.
  unfold not_after, le_start.
  destruct (startInMs x), (startInMs y); simpl; try discriminate;
    try (intros _; repeat split; congruence).
  intros H. apply Z.leb_gt in H. repeat split; [lia | intros [= ->]; lia|].
  apply Z.leb_le. lia.
Qed.

Lemma not_after_refl x : not_after x x = true.
Proof.
  unfold not_after. destruct (startInMs x); simpl; try reflexivity.
  apply Z.leb_le. lia.
Qed.

(** *** The result is a rearrangement *)

Lemma insert_perm x l : Permutation (insert_by_start x l) (x :: l).
Proof.
  induction l as [|y l IH]; simpl; [reflexivity|].
  destruct (not_after x y); [reflexivity|].
  rewrite IH. apply perm_swap.
Qed.

Lemma sort_perm l : Permutation (sort_by_start l) l.
Proof.
  induction l as [|x l IH]; simpl; [reflexivity|].
  rewrite insert_perm. now rewrite IH.
Qed.

(** *** No element stands right before one that has to go before it *)

Lemma insert_in_order x l : in_order l -> in_order (insert_by_start x l).
Proof.
  unfold in_order. induction 1 as [|y l Hl IH Hy]; simpl.
  - repeat constructor.
  - destruct (not_after x y) eqn:E.
    + repeat constructor; assumption.
    + constructor; [exact IH|].
      apply not_after_false in E as (_ & _ & E).
      destruct Hy as [|z l Hyz]; simpl; [now constructor|].
      destruct (not_after x z); now constructor.
Qed.

Lemma sort_in_order l : in_order (sort_by_start l).
Proof.
  induction l as [|x l IH]; simpl; [constructor | now apply insert_in_order].
Qed.

Lemma sort_id l : in_order l -> sort_by_start l = l.
Proof.
  unfold in_order. induction 1 as [|x l Hl IH Hx]; simpl; [reflexivity|].
  rewrite IH. destruct Hx as [|y l' Hxy]; simpl; [reflexivity|].
  now rewrite Hxy.
Qed.

(** *** Without [NaN] the result is sorted *)

Lemma insert_sorted x l :
  startInMs x <> NaN -> no_nan l ->
  StronglySorted le_start l -> StronglySorted le_start (insert_by_start x l).
Proof.
  intros Hx Hn. induction 1 as [|y l Hl IH Hy]; simpl.
  - repeat constructor.
  - apply Forall_cons in Hn as [Hny Hn].
    destruct (not_after x y) eqn:E.
    + apply not_after_le in E; [|assumption..].
      constructor; [now constructor|].
      constructor; [exact E|].
      eapply Forall_impl; [exact Hy|]. unfold le_start in *.
      intros z Hz. eapply le_trans; eassumption.
    + apply not_after_false in E as (E & _ & _).
      constructor; [now apply IH|].
      rewrite insert_perm. constructor; [exact E | exact Hy].
Qed.

Lemma sort_sorted l : no_nan l -> StronglySorted le_start (sort_by_start l).
Proof.
  induction 1 as [|x l Hx Hl IH]; simpl; [constructor|].
  apply insert_sorted; [exact Hx | | exact IH].
  unfold no_nan. now rewrite sort_perm.
Qed.

(** Either some start is [NaN] or the result is sorted. *)
Lemma sort_sorted_or_nan l :
  Exists nan_start (sort_by_start l) \/ StronglySorted le_start (sort_by_start l).
Proof.
  destruct (decide (Exists (fun s => startInMs s = NaN) l)) as [H | H].
  - left. unfold nan_start. now rewrite sort_perm.
  - right. apply sort_sorted. apply not_Exists_Forall in H; [exact H|].
    intros s. apply _.
Qed.

(** *** Stability: the segments that start at [k] keep their order *)

(** This is a fact of the insertion; an engine promises it when the
    comparator is consistent, that is when no start is [NaN], and only
    then is it used for a statement about the code. *)

Lemma insert_stable k x l :
  starting_at k (insert_by_start x l) = starting_at k (x :: l).
Proof.
  unfold starting_at. induction l as [|y l IH]; simpl; [reflexivity|].
  destruct (not_after x y) eqn:E; [reflexivity|].
  apply not_after_false in E as (_ & E & _). simpl in IH |- *. rewrite IH.
  destruct (decide (startInMs x = k)) as [Ex | Ex];
    destruct (decide (startInMs y = k)) as [Ey | Ey];
    rewrite ?(bool_decide_eq_true_2 _ Ex), ?(bool_decide_eq_false_2 _ Ex),
            ?(bool_decide_eq_true_2 _ Ey), ?(bool_decide_eq_false_2 _ Ey);
    try reflexivity.
  congruence.
Qed.

Lemma sort_stable k l : starting_at k (sort_by_start l) = starting_at k l.
Proof.
  induction l as [|x l IH]; simpl; [reflexivity|].
  rewrite insert_stable. unfold starting_at in *. simpl. now rewrite IH.
Qed.

(** *** Without [NaN] the result is the one that every stable sort gives *)

Lemma le_antisym (a b : number) : Number.le a b -> Number.le b a -> a = b.
Proof. destruct a, b; simpl; try tauto. intros. f_equal. lia. Qed.

Lemma starting_at_head x l :
  starting_at (startInMs x) (x :: l) = x :: starting_at (startInMs x) l.
Proof.
  unfold starting_at. simpl. now rewrite bool_decide_eq_true_2 by reflexivity.
Qed.

Lemma starting_at_tail k x l1 l2 :
  starting_at k (x :: l1) = starting_at k (x :: l2) ->
  starting_at k l1 = starting_at k l2.
Proof.
  unfold starting_at. simpl. destruct (bool_decide _); [|trivial].
  now intros [= H].
Qed.

(** The head of a sorted list starts no later than a segment that some
    [starting_at] of the list holds. *)
Lemma head_first x l y k rest :
  StronglySorted le_start (x :: l) -> starting_at k (x :: l) = y :: rest ->
  y = x \/ le_start x y.
Proof.
  intros Hs Hk. apply StronglySorted_inv in Hs as [_ Hx].
  assert (In y (x :: l)) as [-> | Hin].
  { eapply (proj1 (filter_In _ y (x :: l))). unfold starting_at in Hk.
    rewrite Hk. now left. }
  - now left.
  - right. apply (proj1 (Forall_forall _ _) Hx). now apply list_elem_of_In.
Qed.

(** Two sorted lists with the same segments at each start, in the same
    order, are one list. *)
Lemma sorted_stable_eq l1 l2 :
  StronglySorted le_start l1 -> StronglySorted le_start l2 ->
  (forall k, starting_at k l1 = starting_at k l2) -> l1 = l2.
Proof.
  revert l2. induction l1 as [|x t1 IH]; intros [|y t2] H1 H2 Hk.
  - reflexivity.
  - specialize (Hk (startInMs y)). rewrite starting_at_head in Hk. discriminate.
  - specialize (Hk (startInMs x)). rewrite starting_at_head in Hk. discriminate.
  - assert (startInMs x = startInMs y) as E.
    { pose proof (Hk (startInMs x)) as Hx. rewrite starting_at_head in Hx.
      pose proof (Hk (startInMs y)) as Hy. rewrite starting_at_head in Hy.
      destruct (head_first _ _ _ _ _ H2 (eq_sym Hx)) as [-> | Hyx]; [reflexivity|].
      destruct (head_first _ _ _ _ _ H1 Hy) as [-> | Hxy]; [reflexivity|].
      now apply le_antisym. }
    assert (x = y) as <-.
    { pose proof (Hk (startInMs x)) as Hx. rewrite starting_at_head in Hx.
      rewrite E in Hx. rewrite starting_at_head in Hx. now injection Hx. }
    f_equal. apply StronglySorted_inv in H1 as [H1 _], H2 as [H2 _].
    apply IH; [assumption..|]. intros k. eapply starting_at_tail, Hk.
Qed.

(** A sort that is stable and returns a sorted list returns what
    [sort_by_start] returns. *)
Lemma sort_unique l l' :
  no_nan l -> StronglySorted le_start l' ->
  (forall k, starting_at k l' = starting_at k l) -> l' = sort_by_start l.
Proof.
  intros Hn Hs Hk. apply sorted_stable_eq; [exact Hs | now apply sort_sorted|].
  intros k. now rewrite sort_stable.
Qed.

End SortFacts.


(** ** The [seen] filter and first occurrences *)

Module DedupFacts.

Lemma same_key_true a b : same_key a b = true <-> segment_key a = segment_key b.
Proof.
  unfold same_key. rewrite bool_decide_eq_true. symmetry.
  apply KeyFacts.segment_key_inj.
Qed.

Lemma filter_filter {A} (f g : A -> bool) (l : list A) :
  List.filter f (List.filter g l) = List.filter (fun x => g x && f x) l.
Proof.
  induction l as [|x l IH]; simpl; [reflexivity|].
  destruct (g x); simpl; [destruct (f x)|]; now rewrite IH.
Qed.

Lemma filter_ext_bool {A} (f g : A -> bool) (l : list A) :
  (forall x, f x = g x) -> List.filter f l = List.filter g l.
Proof.
  intros H. induction l as [|x l IH]; simpl; [reflexivity|].
  now rewrite H, IH.
Qed.

Lemma filter_all {A} (f : A -> bool) (l : list A) :
  Forall (fun x => f x = true) l -> List.filter f l = l.
Proof.
  induction 1 as [|x l Hx _ IH]; simpl; [reflexivity|]. now rewrite Hx, IH.
Qed.

(** The filter through [seen] keeps the first occurrences whose key is not
    in [seen] already. *)
Lemma dedup_from_first_occurrences (seen : gset string) l :
  dedup_from seen l
  = List.filter (fun s => bool_decide (segment_key s ∉ seen)) (first_occurrences l).
Proof.
  revert seen. induction l as [|s l IH]; intros seen; simpl; [reflexivity|].
  destruct (decide (segment_key s ∈ seen)) as [Hin | Hnin].
  - rewrite bool_decide_eq_false_2 by tauto.
    rewrite IH, filter_filter. apply filter_ext_bool. intros x.
    destruct (same_key s x) eqn:E; simpl; [|reflexivity].
    apply same_key_true in E. rewrite <- E.
    apply bool_decide_eq_false_2. tauto.
  - rewrite bool_decide_eq_true_2 by exact Hnin. f_equal.
    rewrite IH, filter_filter. apply filter_ext_bool. intros x.
    destruct (same_key s x) eqn:E; simpl.
    + apply same_key_true in E. rewrite <- E.
      apply bool_decide_eq_false_2. set_solver.
    + assert (segment_key s <> segment_key x) as Hne.
      { intros Heq. apply same_key_true in Heq. congruence. }
      apply bool_decide_ext.
      rewrite elem_of_union, elem_of_singleton. intuition congruence.
Qed.

Lemma dedup_from_empty l : dedup_from ∅ l = first_occurrences l.
Proof.
  rewrite dedup_from_first_occurrences. apply filter_all.
  apply Forall_forall. intros x _. apply bool_decide_eq_true_2. set_solver.
Qed.

Lemma first_occurrences_incl l x : x ∈ first_occurrences l -> x ∈ l.
Proof.
  revert x. induction l as [|s l IH]; intros x; simpl; [trivial|].
  rewrite !elem_of_cons. intros [-> | H]; [now left|].
  right. apply IH. apply list_elem_of_In in H. apply filter_In in H as [H _].
  now apply list_elem_of_In.
Qed.

Lemma first_occurrences_nodup l :
  NoDup (composite_key <$> first_occurrences l).
Proof.
  induction l as [|s l IH]; cbn [first_occurrences]; [constructor|].
  rewrite fmap_cons. apply NoDup_cons. split.
  - intros Hin. apply list_elem_of_fmap in Hin as (x & Hk & Hx).
    apply list_elem_of_In, filter_In in Hx as [_ Hx].
    apply negb_true_iff in Hx. unfold same_key in Hx.
    apply bool_decide_eq_false in Hx. congruence.
  - revert IH. generalize (first_occurrences l). intros l' Hl'.
    induction l' as [|y l' IH']; cbn [List.filter]; [constructor|].
    rewrite fmap_cons in Hl'. apply NoDup_cons in Hl' as [Hy Hl'].
    destruct (negb (same_key s y)); [|now apply IH'].
    rewrite fmap_cons. apply NoDup_cons. split; [|now apply IH'].
    intros Hin. apply Hy. apply list_elem_of_fmap in Hin as (x & Hk & Hx).
    apply list_elem_of_fmap. exists x. split; [exact Hk|].
    apply list_elem_of_In, filter_In in Hx as [Hx _]. now apply list_elem_of_In.
Qed.

Lemma first_occurrences_id l :
  NoDup (composite_key <$> l) -> first_occurrences l = l.
Proof.
  induction l as [|s l IH]; cbn [first_occurrences]; [reflexivity|].
  rewrite fmap_cons, NoDup_cons. intros [Hs Hl].
  rewrite (IH Hl). f_equal. apply filter_all.
  apply Forall_forall. intros x Hx. apply negb_true_iff.
  unfold same_key. apply bool_decide_eq_false. intros Heq.
  apply Hs. rewrite Heq. apply list_elem_of_fmap. now exists x.
Qed.

End DedupFacts.

(** ** The cleaning steps *)

Module CleanFacts.

Lemma nonempty_length (s : string) :
  Str.nonempty s = Nat.ltb 0 (String.length s).
Proof. now destruct s. Qed.

(** The two filters and the map of the source drop and trim as the
    specification says. *)
Lemma cleaned_spec items : cleaned items = omap spec_keep items.
Proof.
  unfold cleaned. induction items as [|i items IH]; [reflexivity|].
  cbn [omap list_omap]. fold (omap trimmed items). fold (omap spec_keep items).
  destruct i as [[[t|] st d]|]; simpl; try exact IH.
  unfold has_text at 1. simpl. rewrite <- nonempty_length.
  destruct (Str.nonempty (Str.trim t)); simpl; now rewrite IH.
Qed.

Lemma spec_keep_clean i s : spec_keep i = Some s -> clean_text s.
Proof.
  destruct i as [[[t|] st d]|]; simpl; try discriminate.
  destruct (Str.nonempty (Str.trim t)) eqn:E; [|discriminate].
  intros [= <-]. split; [exact E | apply TrimFacts.trim_idem].
Qed.

Lemma cleaned_clean items : Forall clean_text (cleaned items).
Proof.
  rewrite cleaned_spec. apply Forall_forall. intros s Hs.
  apply list_elem_of_omap in Hs as (i & _ & Hi). eapply spec_keep_clean, Hi.
Qed.

(** A clean segment goes through the cleaning steps unchanged. *)
Lemma cleaned_of_clean l :
  Forall clean_text l -> cleaned (of_segment <$> l) = l.
Proof.
  rewrite cleaned_spec.
  induction 1 as [|s l [Hne Htrim] _ IH]; [reflexivity|].
  rewrite fmap_cons. cbn [omap list_omap]. fold (omap spec_keep (of_segment <$> l)).
  rewrite IH. destruct s as [t st d]; simpl in *. now rewrite Htrim, Hne.
Qed.

End CleanFacts.


(** ** C3 and C7: the normalizer *)

Lemma normalizeSegments_unfold items :
  normalizeSegments items
  = sort_by_start (first_occurrences (omap spec_keep items)).
Proof.
  unfold normalizeSegments.
  now rewrite DedupFacts.dedup_from_empty, CleanFacts.cleaned_spec.
Qed.

Lemma normalizeSegments_sorted_by_start items :
  Exists nan_start (normalizeSegments items)
  \/ StronglySorted le_start (normalizeSegments items).
Proof. rewrite normalizeSegments_unfold. apply SortFacts.sort_sorted_or_nan. Qed.

Lemma normalizeSegments_in_order items : in_order (normalizeSegments items).
Proof. rewrite normalizeSegments_unfold. apply SortFacts.sort_in_order. Qed.

Lemma normalizeSegments_nodup items :
  NoDup (composite_key <$> normalizeSegments items).
Proof.
  rewrite normalizeSegments_unfold.
  rewrite (SortFacts.sort_perm (first_occurrences _)).
  apply DedupFacts.first_occurrences_nodup.
Qed.

Lemma normalizeSegments_clean items :
  Forall clean_text (normalizeSegments items).
Proof.
  rewrite normalizeSegments_unfold.
  rewrite (SortFacts.sort_perm (first_occurrences _)).
  apply Forall_forall. intros s Hs.
  apply DedupFacts.first_occurrences_incl in Hs.
  apply list_elem_of_omap in Hs as (i & _ & Hi).
  eapply CleanFacts.spec_keep_clean, Hi.
Qed.

(** C3 fails on the code.  The first dialect takes any attribute value for
    a start, and [Math.round(Number(s) * 1000)] of a value that is no
    number is [NaN]: the parser returns the three segments of
    [example_nan_xml] with the starts 3000, [NaN], 1000.  On that list the
    comparator of [normalizeSegments] answers [NaN] wherever the second
    segment is compared, the sort moves nothing, and the output, with 3000
    before 1000, is not sorted by [startInMs]. *)
Lemma normalizeSegments_nan_start_unsorted :
  parseTranscriptTexts example_secondsToMs example_nan_xml
  = [ mkSegment "a" (Num 3000) (Num 1000); mkSegment "n" NaN (Num 1000);
      mkSegment "b" (Num 1000) (Num 1000) ]
  /\ normalizeSegments
       [ Some (mkRaw (Some "a") (Num 3000) (Num 1000));
         Some (mkRaw (Some "n") NaN (Num 1000));
         Some (mkRaw (Some "b") (Num 1000) (Num 1000)) ]
     = [ mkSegment "a" (Num 3000) (Num 1000); mkSegment "n" NaN (Num 1000);
         mkSegment "b" (Num 1000) (Num 1000) ]
  /\ ~ StronglySorted le_start
        (normalizeSegments
           [ Some (mkRaw (Some "a") (Num 3000) (Num 1000));
             Some (mkRaw (Some "n") NaN (Num 1000));
             Some (mkRaw (Some "b") (Num 1000) (Num 1000)) ]).
Proof.
  assert (normalizeSegments
            [ Some (mkRaw (Some "a") (Num 3000) (Num 1000));
              Some (mkRaw (Some "n") NaN (Num 1000));
              Some (mkRaw (Some "b") (Num 1000) (Num 1000)) ]
          = [ mkSegment "a" (Num 3000) (Num 1000); mkSegment "n" NaN (Num 1000);
              mkSegment "b" (Num 1000) (Num 1000) ]) as E
    by (vm_compute; reflexivity).
  split; [vm_compute; reflexivity|].
  split; [exact E|]. rewrite E. intros H.
  apply StronglySorted_inv in H as [_ H].
  apply Forall_cons in H as [H _]. exact H.
Qed.

(** X26. What [normalizeSegments] does for every input.  Its output holds
    no two elements with the same [startInMs] and the same [text], and is
    what the steps of the specification compute: drop the segments whose
    text is not a string or is empty once trimmed, trim, keep the first
    occurrence of each key [(startInMs, text)], sort with the comparator on
    [startInMs]; it is a rearrangement of those first occurrences.  Unless
    the [startInMs] of one of its elements is [NaN], it is sorted ascending
    by [startInMs] and the segments of equal start are left in their
    order. *)
Theorem normalizeSegments_sorted_unique (items : list (option RawSegment)) :
  NoDup (composite_key <$> normalizeSegments items)
  /\ normalizeSegments items = normalizeSegments_spec items
  /\ Permutation (normalizeSegments items)
                 (first_occurrences (omap spec_keep items))
  /\ (Exists nan_start (normalizeSegments items)
      \/ (StronglySorted le_start (normalizeSegments items)
          /\ forall k, starting_at k (normalizeSegments items)
                       = starting_at k (first_occurrences (omap spec_keep items)))).
Proof.
  split; [|split; [|split]].
  - apply normalizeSegments_nodup.
  - apply normalizeSegments_unfold.
  - rewrite normalizeSegments_unfold. apply SortFacts.sort_perm.
  - destruct (normalizeSegments_sorted_by_start items) as [H | H];
      [now left | right].
    split; [exact H|].
    intros k. rewrite normalizeSegments_unfold. apply SortFacts.sort_stable.
Qed.

(** C7. [normalizeSegments] is idempotent: applied to its own output it
    returns that output. *)
Theorem normalizeSegments_idempotent (items : list (option RawSegment)) :
  normalizeSegments (of_segment <$> normalizeSegments items)
  = normalizeSegments items.
Proof.
  set (out := normalizeSegments items).
  unfold normalizeSegments at 1.
  rewrite CleanFacts.cleaned_of_clean by apply normalizeSegments_clean.
  rewrite DedupFacts.dedup_from_empty.
  rewrite DedupFacts.first_occurrences_id by apply normalizeSegments_nodup.
  apply SortFacts.sort_id. subst out. apply normalizeSegments_in_order.
Qed.

Example normalizeSegments_sample :
  normalizeSegments
    [ Some (mkRaw (Some " b ") (Num 20) (Num 1)); None;
      Some (mkRaw None (Num 5) (Num 1));
      Some (mkRaw (Some "a") (Num 10) (Num 1));
      Some (mkRaw (Some "b") (Num 20) (Num 7));
      Some (mkRaw (Some "   ") (Num 1) (Num 1));
      Some (mkRaw (Some "c") (Num 10) (Num 2)) ]
  = [ mkSegment "a" (Num 10) (Num 1); mkSegment "c" (Num 10) (Num 2);
      mkSegment "b" (Num 20) (Num 1) ].
Proof. vm_compute. reflexivity. Qed.


(** ** C5: the playability guard *)

Example assertPlayability_not_a_bot :
  assertPlayability
    (Some (mkPlayability (Some "LOGIN_REQUIRED")
             (Some "Sign in to confirm you're not a bot")))
  = Throw (JsError "request_blocked").
Proof. vm_compute. reflexivity. Qed.

Example assertPlayability_ok :
  assertPlayability (Some (mkPlayability (Some "OK") None)) = Ok tt.
Proof. vm_compute. reflexivity. Qed.

Lemma or_empty_reason ps : or_empty (ps ≫= reason) = reason_of ps.
Proof. destruct ps as [[st [r|]]|]; reflexivity. Qed.

(** C5, as stated, fails: a status that is present and empty is not OK, and
    the guard lets it pass where the rules as worded answer
    [video_unplayable]. *)
Lemma assertPlayability_empty_status_passes :
  assertPlayability (Some (mkPlayability (Some "") None)) = Ok tt
  /\ playability_rules (Some (mkPlayability (Some "") None))
     = Throw (JsError "video_unplayable")
  /\ assertPlayability (Some (mkPlayability (Some "") None))
     <> playability_rules (Some (mkPlayability (Some "") None)).
Proof. repeat split. intros H. vm_compute in H. discriminate H. Qed.

(** C5, amended. A missing or empty status and the status OK pass; for every
    other status the guard answers as the rules say, in their order:
    [request_blocked], [age_restricted], [video_unavailable], and
    [video_unplayable] for anything else; it fails in no other case. *)
Theorem assertPlayability_rules (ps : option PlayabilityStatus) :
  assertPlayability ps
  = match status_of ps with
    | Some EmptyString => Ok tt
    | _ => playability_rules ps
    end.
Proof.
  unfold assertPlayability, playability_rules.
  rewrite or_empty_reason.
  replace (ps ≫= status) with (status_of ps) by now destruct ps.
  destruct (status_of ps) as [[|c st]|]; try reflexivity.
  cbn [Str.nonempty negb orb].
  set (s := String c st). set (r := reason_of ps). clearbody s r.
  destruct (String.eqb_spec s "OK") as [-> | Hok];
    [now rewrite bool_decide_eq_true_2 | rewrite bool_decide_eq_false_2 by exact Hok].
  destruct (String.eqb_spec s "LOGIN_REQUIRED") as [-> | Hlogin].
  - rewrite !bool_decide_eq_true_2 by reflexivity.
    rewrite (bool_decide_eq_false_2 (_ = "ERROR")) by discriminate.
    cbn [String.eqb Ascii.eqb Bool.eqb andb]. unfold throw_if, rbind.
    destruct (Str.includes r "not a bot"); [reflexivity|].
    destruct (Str.includes r "inappropriate"); reflexivity.
  - rewrite !(bool_decide_eq_false_2 (s = "LOGIN_REQUIRED")) by exact Hlogin.
    cbn [andb rbind]. unfold throw_if.
    destruct (String.eqb_spec s "ERROR") as [-> | Herr].
    + rewrite bool_decide_eq_true_2 by reflexivity.
      cbn [andb]. destruct (Str.includes r "unavailable"); reflexivity.
    + rewrite bool_decide_eq_false_2 by exact Herr. reflexivity.
Qed.

(** ** C6: entity decoding *)

Example decodeHtml_spec_five :
  decodeHtml_spec "a &amp; b &lt;i&gt; &quot;c&quot; it&#39;s &nbsp;"
  = "a & b <i> " +:+ DQ +:+ "c" +:+ DQ +:+ " it's &nbsp;".
Proof. vm_compute. reflexivity. Qed.

(** C6 fails on the code: the ampersand entity is decoded first, and what it
    leaves is decoded again.  In [&amp;lt;] only [&amp;] is an entity of the
    input and [lt;] is plain text; the code answers [<]. *)
Lemma decodeHtml_decodes_twice :
  decodeHtml "&amp;lt;" = "<"
  /\ decodeHtml_spec "&amp;lt;" = "&lt;"
  /\ decodeHtml "it&amp;#39;s" = "it's"
  /\ decodeHtml_spec "it&amp;#39;s" = "it&#39;s".
Proof. repeat split. Qed.


(** ** Track selection *)

Module TrackFacts.

Lemma strip_spec (p s t : string) : Str.strip p s = Some t <-> s = p +:+ t.
Proof.
  revert s. induction p as [|a p IH]; intros s; simpl.
  - split; [now intros [= ->] | now intros ->].
  - destruct s as [|c s]; [split; discriminate|].
    destruct (Ascii.eqb_spec a c) as [-> | Hne].
    + rewrite IH. split; [now intros -> | now intros [= ->]].
    + split; [discriminate | intros [= -> _]; now destruct Hne].
Qed.

Lemma find_first {A} (f : A -> bool) (l : list A) (t : A) :
  List.find f l = Some t -> first_such (fun x => f x = true) l t.
Proof.
  induction l as [|x l IH]; simpl; [discriminate|].
  destruct (f x) eqn:E.
  - intros [= <-]. exists [], l. repeat split; [exact E | constructor].
  - intros H. destruct (IH H) as (l1 & l2 & -> & Ht & Hl1).
    exists (x :: l1), l2. repeat split; [exact Ht|].
    constructor; [congruence | exact Hl1].
Qed.

Lemma find_nothing {A} (f : A -> bool) (l : list A) :
  List.find f l = None -> Forall (fun x => f x = false) l.
Proof.
  induction l as [|x l IH]; simpl; [constructor|].
  destruct (f x) eqn:E; [discriminate|]. intros H. constructor; auto.
Qed.

Lemma first_such_impl {A} (P Q : A -> Prop) (l : list A) (t : A) :
  (forall x, P x <-> Q x) -> first_such P l t -> first_such Q l t.
Proof.
  intros HPQ (l1 & l2 & -> & Ht & Hl1). exists l1, l2.
  repeat split; [now apply HPQ|].
  eapply Forall_impl; [exact Hl1|]. intros x Hx HQ. apply Hx. now apply HPQ.
Qed.

Lemma lang_matches_pref (p : string) (x : CaptionTrack) :
  lang_matches (Str.toLowerCase p) x = true <-> pref_matches p x.
Proof.
  unfold lang_matches, pref_matches.
  rewrite orb_true_iff, String.eqb_eq. reflexivity.
Qed.

Lemma nonempty_true (s : string) : Str.nonempty s = true <-> s <> "".
Proof. destruct s; simpl; split; congruence. Qed.

Lemma manual_filter tracks : List.filter is_manual tracks = manual_tracks tracks.
Proof.
  apply DedupFacts.filter_ext_bool. intros t. unfold is_manual.
  apply eq_true_iff_eq.
  rewrite andb_true_iff, negb_true_iff, String.eqb_neq, nonempty_true.
  now rewrite bool_decide_eq_true.
Qed.

Lemma asr_filter tracks : List.filter is_asr tracks = asr_tracks tracks.
Proof.
  apply DedupFacts.filter_ext_bool. intros t. unfold is_asr.
  apply eq_true_iff_eq.
  rewrite andb_true_iff, String.eqb_eq, nonempty_true.
  now rewrite bool_decide_eq_true.
Qed.

(** The scan answers as soon as one preference has a match in the list, with
    the first match of the first such preference. *)
Lemma scan_some (ps : list string) (l : list CaptionTrack) :
  Exists (fun p => Exists (pref_matches p) l) ps ->
  exists t, scan (List.map Str.toLowerCase ps) l = Some t /\ scan_choice ps l t.
Proof.
  induction ps as [|p ps IH]; intros Hex; [inversion Hex|].
  cbn [List.map scan].
  destruct (List.find (lang_matches (Str.toLowerCase p)) l) as [t|] eqn:Ef.
  - exists t. split; [reflexivity|]. exists p. split.
    + exists [], ps. repeat split; [|constructor].
      apply find_first in Ef as (l1 & l2 & -> & Ht & _).
      apply Exists_exists. exists t. split; [|now apply lang_matches_pref].
      apply list_elem_of_In, in_or_app. right. now left.
    + eapply first_such_impl; [|apply find_first, Ef].
      intros x. apply lang_matches_pref.
  - apply find_nothing in Ef.
    assert (~ Exists (pref_matches p) l) as Hnone.
    { intros Hp. apply Exists_exists in Hp as (x & Hx & Hm).
      rewrite Forall_forall in Ef. specialize (Ef x Hx).
      apply lang_matches_pref in Hm. congruence. }
    apply Exists_cons in Hex as [Hp | Hps]; [contradiction|].
    destruct (IH Hps) as (t & Hscan & q & Hq & Ht).
    exists t. split; [exact Hscan|]. exists q. split; [|exact Ht].
    destruct Hq as (l1 & l2 & -> & Hq & Hl1).
    exists (p :: l1), l2. repeat split; [exact Hq|]. now constructor.
Qed.

Lemma scan_elem prefs l t : scan prefs l = Some t -> t ∈ l.
Proof.
  induction prefs as [|p prefs IH]; simpl; [discriminate|].
  destruct (List.find (lang_matches p) l) as [x|] eqn:Ef; [|exact IH].
  intros [= <-]. apply find_some in Ef as [Hin _]. now apply list_elem_of_In.
Qed.

End TrackFacts.

(** ** C4: manual tracks before asr tracks *)

Example chooseTrack_none : chooseTrack [] None None None = None.
Proof. reflexivity. Qed.

(** The example of the specification, whatever the order of the tracks in
    the list and whatever their URLs. *)
Lemma chooseTrack_example_any_order tracks es en pt d idxs :
  manual_tracks tracks = [es; en] -> asr_tracks tracks = [pt] ->
  languageCode es = "es" -> languageCode en = "en" -> languageCode pt = "pt" ->
  chooseTrack tracks (Some ["pt"; "en"]) d idxs = Some (selection_of en).
Proof.
  intros Hm Ha Hes Hen Hpt. unfold chooseTrack.
  rewrite TrackFacts.manual_filter, TrackFacts.asr_filter, Hm, Ha.
  cbn. unfold lang_matches. rewrite Hes, Hen. reflexivity.
Qed.

(** C4. When a manual track matches one of the preferences, [chooseTrack]
    returns the track that the scan of the manual tracks finds (the first
    manual match of the first preference that has a manual match, by exact
    or case-insensitive-prefix comparison of language codes), whatever the
    asr tracks are; with manual tracks es and en, an asr track pt and the
    preferences pt, en it selects the manual en track. *)
Theorem chooseTrack_manual_before_asr
    (tracks : list CaptionTrack) (prefs : list string)
    (d : option Z) (idxs : option (list Z)) :
  Exists (fun p => Exists (pref_matches p) (manual_tracks tracks)) prefs ->
  (exists t, scan_choice prefs (manual_tracks tracks) t
             /\ chooseTrack tracks (Some prefs) d idxs = Some (selection_of t))
  /\ chooseTrack example_tracks (Some ["pt"; "en"]) d idxs
     = Some {| url := "https://video.example/tt?lang=en"; lang := "en" |}.
Proof.
  intros Hex. split.
  - destruct (TrackFacts.scan_some prefs _ Hex) as (t & Hscan & Hchoice).
    exists t. split; [exact Hchoice|].
    unfold chooseTrack. rewrite TrackFacts.manual_filter, Hscan. reflexivity.
  - reflexivity.
Qed.

Lemma chooseTrack_manual_before_asr_witness :
  Exists (fun p => Exists (pref_matches p) (manual_tracks example_tracks))
         ["pt"; "en"]
  /\ chooseTrack example_tracks (Some ["pt"; "en"]) (Some 2%Z) (Some [2%Z])
     = Some {| url := "https://video.example/tt?lang=en"; lang := "en" |}.
Proof.
  assert (Exists (fun p => Exists (pref_matches p) (manual_tracks example_tracks))
            ["pt"; "en"]) as Hex.
  { apply Exists_cons_tl, Exists_cons_hd.
    apply Exists_cons_tl, Exists_cons_hd. now left. }
  split; [exact Hex|].
  exact (proj2 (chooseTrack_manual_before_asr
                  example_tracks ["pt"; "en"] (Some 2%Z) (Some [2%Z]) Hex)).
Defined.


(** ** C9: the URL of the selection *)

Module ReplaceFacts.

Lemma startsWith_strip (s p : string) :
  Str.startsWith s p = false <-> Str.strip p s = None.
Proof. unfold Str.startsWith. destruct (Str.strip p s); split; congruence. Qed.

Lemma includes_cons (c : ascii) (s p : string) :
  Str.includes (String c s) p = Str.startsWith (String c s) p || Str.includes s p.
Proof. reflexivity. Qed.

(** [replace] with an empty replacement removes the first occurrence. *)
Lemma replace_without_first (p s : string) :
  without_first p s (Str.replace s p "").
Proof.
  induction s as [|c s IH].
  - simpl. destruct (Str.strip p "") as [t|] eqn:E.
    + right. apply TrackFacts.strip_spec in E. exists "", t.
      repeat split; [exact E|]. intros a1 a2 Ha. now destruct a1, a2.
    + left. split; [|reflexivity].
      unfold Str.includes, Str.startsWith. now rewrite E.
  - cbn [Str.replace]. destruct (Str.strip p (String c s)) as [t|] eqn:E.
    + right. apply TrackFacts.strip_spec in E. exists "", t.
      repeat split; [exact E|]. intros a1 a2 Ha. now destruct a1, a2.
    + destruct IH as [[Hinc ->] | (a & b & -> & -> & Hfirst)].
      * left. split; [|reflexivity].
        rewrite includes_cons, Hinc. unfold Str.startsWith. now rewrite E.
      * right. exists (String c a), b. repeat split.
        intros [|c1 a1] a2 Ha Hne.
        -- simpl in Ha. subst a2. apply startsWith_strip. exact E.
        -- injection Ha as _ ->. now apply (Hfirst a1 a2).
Qed.

Lemma endsWith_includes (s p : string) :
  Str.endsWith s p = true -> Str.includes s p = true.
Proof.
  induction s as [|c s IH]; cbn [Str.endsWith Str.includes];
    rewrite !orb_true_iff; intros [H | H].
  - apply String.eqb_eq in H as <-. now left.
  - discriminate H.
  - apply String.eqb_eq in H as <-. left.
    unfold Str.startsWith.
    now rewrite (proj2 (TrackFacts.strip_spec _ _ "") (eq_sym (StrFacts.app_nil_r _))).
  - right. now apply IH.
Qed.

Lemma strip_cons (a c : ascii) (p s : string) :
  Str.strip (String a p) (String c s)
  = if Ascii.eqb a c then Str.strip p s else None.
Proof. reflexivity. Qed.

(** A string free of [a] that starts [u] followed by [a] starts [u]. *)
Lemma strip_before (a : ascii) (q q' u t : string) :
  StrPred.all (fun c => negb (Ascii.eqb c a)) q' = true ->
  Str.strip q' (u +:+ String a q) = Some t ->
  exists t', Str.strip q' u = Some t'.
Proof.
  revert u. induction q' as [|b q' IH]; intros u Hall H; [now exists u|].
  simpl in Hall. apply andb_true_iff in Hall as [Hb Hall].
  apply negb_true_iff in Hb.
  destruct u as [|c u]; simpl in H |- *.
  - rewrite Hb in H. discriminate H.
  - destruct (Ascii.eqb b c); [now apply IH | discriminate H].
Qed.

(** The pattern does not overlap itself: before a copy of it, it can only
    start inside what precedes. *)
Lemma srv3_no_overlap (u : string) :
  u <> "" -> Str.startsWith u srv3 = false ->
  Str.strip srv3 (u +:+ srv3) = None.
Proof.
  intros Hne H. apply startsWith_strip in H.
  destruct u as [|c u]; [now destruct Hne|].
  destruct (Str.strip srv3 (String c u +:+ srv3)) as [t|] eqn:E; [|reflexivity].
  unfold srv3 in *.
  change (String c u +:+ "&fmt=srv3") with (String c (u +:+ String "&" "fmt=srv3")) in E.
  change "&fmt=srv3" with (String "&"%char "fmt=srv3") in E, H.
  rewrite strip_cons in E, H.
  destruct (Ascii.eqb "&" c); [|discriminate E].
  apply strip_before in E as [t' Ht']; [congruence | reflexivity].
Qed.

(** A URL that carries the pattern once, at its end, loses it. *)
Lemma replace_suffix (u : string) :
  Str.includes u srv3 = false -> Str.replace (u +:+ srv3) srv3 "" = u.
Proof.
  induction u as [|c u IH]; intros Hinc; [reflexivity|].
  rewrite includes_cons in Hinc. apply orb_false_iff in Hinc as [Hs Hinc].
  cbn [append Str.replace].
  change (String c (u +:+ srv3)) with (String c u +:+ srv3).
  rewrite (srv3_no_overlap (String c u)) by (congruence || exact Hs).
  now rewrite (IH Hinc).
Qed.

End ReplaceFacts.

Lemma filter_elem {A} (f : A -> bool) (l : list A) (x : A) :
  x ∈ List.filter f l -> x ∈ l /\ f x = true.
Proof. rewrite !list_elem_of_In. apply filter_In. Qed.

Lemma usable_at_elem tracks i t :
  usable_at tracks i = Some t -> t ∈ tracks /\ baseUrl t <> "".
Proof.
  unfold usable_at, track_at.
  destruct (0 <=? i)%Z; [|discriminate].
  destruct (tracks !! Z.to_nat i) as [x|] eqn:E; [|discriminate].
  destruct (Str.nonempty (baseUrl x)) eqn:Hne; [|discriminate].
  intros [= <-]. split; [eapply list_elem_of_lookup_2, E|].
  now apply TrackFacts.nonempty_true.
Qed.

Lemma first_usable_elem tracks idxs t :
  first_usable tracks idxs = Some t -> t ∈ tracks /\ baseUrl t <> "".
Proof.
  induction idxs as [|i idxs IH]; simpl; [discriminate|].
  destruct (usable_at tracks i) as [x|] eqn:E; [|exact IH].
  intros [= <-]. eapply usable_at_elem, E.
Qed.

Lemma is_manual_url t : is_manual t = true -> baseUrl t <> "".
Proof.
  unfold is_manual. rewrite andb_true_iff, TrackFacts.nonempty_true. tauto.
Qed.

Lemma is_asr_url t : is_asr t = true -> baseUrl t <> "".
Proof.
  unfold is_asr. rewrite andb_true_iff, TrackFacts.nonempty_true. tauto.
Qed.

(** A selection is made from a track of the list that has a URL. *)
Lemma chooseTrack_track tracks prefs d idxs sel :
  chooseTrack tracks prefs d idxs = Some sel ->
  exists t, t ∈ tracks /\ baseUrl t <> "" /\ sel = selection_of t.
Proof.
  unfold chooseTrack.
  set (ps := List.map Str.toLowerCase _).
  destruct (scan ps (List.filter is_manual tracks)) as [t|] eqn:Em; cbn [orelse].
  { intros [= <-]. exists t. apply TrackFacts.scan_elem, filter_elem in Em as [? ?].
    eauto using is_manual_url. }
  destruct (scan ps (List.filter is_asr tracks)) as [t|] eqn:Ea.
  { intros [= <-]. exists t. apply TrackFacts.scan_elem, filter_elem in Ea as [? ?].
    eauto using is_asr_url. }
  destruct (d ≫= usable_at tracks) as [t|] eqn:Ed.
  { intros [= <-]. exists t. destruct d as [i|]; [|discriminate].
    apply usable_at_elem in Ed as [? ?]. eauto. }
  destruct (idxs ≫= first_usable tracks) as [t|] eqn:Ei.
  { intros [= <-]. exists t. destruct idxs as [l|]; [|discriminate].
    apply first_usable_elem in Ei as [? ?]. eauto. }
  destruct (List.filter is_manual tracks) as [|t ?] eqn:Efm.
  2:{ intros [= <-]. exists t.
      assert (t ∈ List.filter is_manual tracks) as Hin by (rewrite Efm; left).
      apply filter_elem in Hin as [? ?]. eauto using is_manual_url. }
  destruct (List.filter is_asr tracks) as [|t ?] eqn:Efa; [discriminate|].
  intros [= <-]. exists t.
  assert (t ∈ List.filter is_asr tracks) as Hin by (rewrite Efa; left).
  apply filter_elem in Hin as [? ?]. eauto using is_asr_url.
Qed.

(** C9, as stated, fails: only the first occurrence of [&fmt=srv3] is
    removed, so a URL that carries it twice still ends in it. *)
Lemma chooseTrack_url_may_end_in_srv3 :
  exists sel,
    chooseTrack
      [ mkTrack "" "en" "https://video.example/tt?lang=en&fmt=srv3&fmt=srv3" ]
      (Some ["en"]) None None = Some sel
    /\ url sel = "https://video.example/tt?lang=en&fmt=srv3"
    /\ Str.endsWith (url sel) "&fmt=srv3" = true.
Proof. eexists. repeat split. Qed.

(** C9, amended. Whenever [chooseTrack] returns a selection, it comes from a
    track of the list that has a URL, and the returned URL is that [baseUrl]
    without its first occurrence of [&fmt=srv3], wherever it stands (the
    [baseUrl] itself when there is none); when the [baseUrl] is [u&fmt=srv3]
    with no [&fmt=srv3] in [u], the returned URL is [u] and does not end in
    [&fmt=srv3]. *)
Theorem chooseTrack_url_drops_first_srv3
    (tracks : list CaptionTrack) (prefs : option (list string))
    (d : option Z) (idxs : option (list Z)) (sel : Selection) :
  chooseTrack tracks prefs d idxs = Some sel ->
  exists t,
    t ∈ tracks /\ baseUrl t <> "" /\ lang sel = languageCode t
    /\ url sel = Str.replace (baseUrl t) srv3 ""
    /\ without_first srv3 (baseUrl t) (url sel)
    /\ forall u, baseUrl t = u +:+ srv3 -> Str.includes u srv3 = false ->
         url sel = u /\ Str.endsWith (url sel) srv3 = false.
Proof.
  intros H. apply chooseTrack_track in H as (t & Hin & Hurl & ->).
  exists t. repeat split; try assumption.
  - apply ReplaceFacts.replace_without_first.
  - cbn [url selection_of]. rewrite H. now apply ReplaceFacts.replace_suffix.
  - cbn [url selection_of]. rewrite H, ReplaceFacts.replace_suffix by assumption.
    destruct (Str.endsWith u srv3) eqn:E; [|reflexivity].
    apply ReplaceFacts.endsWith_includes in E. congruence.
Qed.

Lemma chooseTrack_url_drops_first_srv3_witness :
  exists t,
    t ∈ example_tracks /\ baseUrl t <> "" /\ "en" = languageCode t
    /\ "https://video.example/tt?lang=en" = Str.replace (baseUrl t) srv3 ""
    /\ without_first srv3 (baseUrl t) "https://video.example/tt?lang=en"
    /\ forall u, baseUrl t = u +:+ srv3 -> Str.includes u srv3 = false ->
         "https://video.example/tt?lang=en" = u
         /\ Str.endsWith "https://video.example/tt?lang=en" srv3 = false.
Proof.
  exact (chooseTrack_url_drops_first_srv3 example_tracks (Some ["pt"; "en"])
           None None
           {| url := "https://video.example/tt?lang=en"; lang := "en" |}
           eq_refl).
Defined.


(** ** The pipeline *)

Module PipelineFacts.

Lemma quiet_ret {A} (a : A) : quiet (ret a).
Proof. now intros w. Qed.

Lemma quiet_throw {A} (e : exn) : quiet (@throw A e).
Proof. now intros w. Qed.

Lemma quiet_lift {A} (r : result A) : quiet (lift r).
Proof. now intros w. Qed.

Lemma quiet_fetch net req : quiet (fetch net req).
Proof. now intros w. Qed.

Lemma quiet_bind {A B} (m : M A) (f : A -> M B) :
  quiet m -> (forall a, quiet (f a)) -> quiet (bind m f).
Proof.
  intros Hm Hf w. unfold bind. specialize (Hm w).
  destruct (m w) as [[a|e] w1]; simpl in *; [|exact Hm].
  now rewrite Hf.
Qed.

Lemma quiet_if {A} (b : bool) (m1 m2 : M A) :
  quiet m1 -> quiet m2 -> quiet (if b then m1 else m2).
Proof. now destruct b. Qed.

Ltac solve_quiet :=
  repeat first
    [ apply quiet_ret | apply quiet_throw | apply quiet_lift
    | apply quiet_fetch | apply quiet_if
    | apply quiet_bind; [|intros ?] ].

Lemma quiet_fetchText net url headers : quiet (fetchText net url headers).
Proof. unfold fetchText. solve_quiet. Qed.

Lemma quiet_fetchWatchHtml net id : quiet (fetchWatchHtml id (fetchText net)).
Proof.
  unfold fetchWatchHtml.
  apply quiet_bind; [apply quiet_fetchText | intros html].
  apply quiet_if; [|apply quiet_ret].
  destruct (exec consent_v_re html); [|apply quiet_throw].
  apply quiet_bind; [apply quiet_fetchText | intros html'].
  solve_quiet.
Qed.

Lemma quiet_fetchInnertubePlayer net key id :
  quiet (fetchInnertubePlayer net key id).
Proof. unfold fetchInnertubePlayer. solve_quiet. Qed.

Lemma quiet_fetchCaptions net u : quiet (fetchCaptions net u).
Proof. unfold fetchCaptions. solve_quiet. Qed.

Lemma outcome_bind {A} c (m : M A) f w :
  console w = c -> quiet m ->
  (forall a w1, console w1 = c -> try_outcome c (f a w1)) ->
  try_outcome c (bind m f w).
Proof.
  intros Hc Hm Hf. unfold bind. specialize (Hm w).
  destruct (m w) as [[a|e] w1]; simpl in Hm.
  - apply Hf. congruence.
  - right. right. exists e. split; [reflexivity | simpl; congruence].
Qed.

Lemma outcome_log c cat msg w :
  console w = c -> cat ∈ categories ->
  try_outcome c ((after logError cat msg do ret None) w).
Proof.
  intros Hc Hcat. left. exists cat, msg. simpl. now rewrite Hc.
Qed.

(** The [try] block logs at most once, and only to return [null]. *)
Lemma transcriptYt_try_outcome secondsToMs net args w :
  try_outcome (console w) (transcriptYt_try secondsToMs net args w).
Proof.
  unfold transcriptYt_try.
  destruct (truthy (extractVideoId (videoUrl args))) as [id|].
  2:{ apply outcome_log; [reflexivity | set_solver]. }
  apply outcome_bind; [reflexivity | apply quiet_fetchWatchHtml |].
  intros html w1 H1.
  destruct (truthy (extractInnertubeApiKey html)) as [apiKey|].
  2:{ apply outcome_log; [exact H1 | set_solver]. }
  apply outcome_bind; [exact H1 | apply quiet_fetchInnertubePlayer |].
  intros data w2 H2.
  apply outcome_bind; [exact H2 | apply quiet_lift |].
  intros _ w3 H3. cbv zeta.
  destruct (default [] _) as [|t0 tracks] eqn:Etracks.
  { apply outcome_log; [exact H3 | set_solver]. }
  destruct (chooseTrack _ _ _ _) as [picked|].
  2:{ apply outcome_log; [exact H3 | set_solver]. }
  apply outcome_bind; [exact H3 | apply quiet_fetchCaptions |].
  intros xml w4 H4.
  destruct (normalizeSegments _) as [|s segs] eqn:Esegs.
  { apply outcome_log; [exact H4 | set_solver]. }
  right. left. exists (s :: segs). simpl.
  split; [reflexivity|]. split; [discriminate|]. split; [|exact H4].
  rewrite <- Esegs. apply normalizeSegments_sorted_by_start.
Qed.

(** The [catch] block logs one line under one category and returns [null]. *)
Lemma transcriptYt_catch_outcome err w :
  exists cat msg,
    cat ∈ categories
    /\ transcriptYt_catch err w
       = (Ok None, {| console := console w ++ [log_line cat msg];
                      fetched := fetched w |}).
Proof.
  unfold transcriptYt_catch.
  set (msg := match err with JsError m => m | Thrown => "" end).
  destruct (_ || _).
  - exists "network_error", msg. split; [set_solver | reflexivity].
  - destruct (_ || _).
    + exists "inaccessible", msg. split; [set_solver | reflexivity].
    + eexists "other_error", _. split; [set_solver | reflexivity].
Qed.

End PipelineFacts.

(** ** C1: the boundary of the pipeline *)

(** C1 fails on the code where it says that the list is ordered.  The
    caption document [example_nan_xml] has an element whose start is no
    number; its start becomes [NaN], the sort of the normalizer moves
    nothing, and the list that [transcriptYt] returns has a start of 3000
    before a start of 1000. *)
Lemma transcriptYt_nan_start_unsorted :
  transcriptYt example_secondsToMs
    (example_net (json_response 200 (example_data None example_tracks))
       (text_response 200 example_nan_xml))
    example_args (mkWorld [] 0)
  = (Ok (Some [ mkSegment "a" (Num 3000) (Num 1000);
                mkSegment "n" NaN (Num 1000);
                mkSegment "b" (Num 1000) (Num 1000) ]),
     mkWorld [] 3)
  /\ ~ StronglySorted le_start
        [ mkSegment "a" (Num 3000) (Num 1000);
          mkSegment "n" NaN (Num 1000);
          mkSegment "b" (Num 1000) (Num 1000) ].
Proof.
  split; [vm_compute; reflexivity|]. intros H.
  apply StronglySorted_inv in H as [_ H].
  apply Forall_cons in H as [H _]. exact H.
Qed.

(** X27. For every input and every behaviour of the network,
    [transcriptYt] returns: it never ends in an exception, and what it
    returns is either [null], with exactly one more line on the console,
    logged under one of the five categories, or a list of segments that is
    not empty, with nothing logged.  The list is sorted by [startInMs]
    unless one of its starts is [NaN]. *)
Theorem transcriptYt_returns
    (secondsToMs : string -> number) (net : Network)
    (args : TranscriptYtArgs) (w : World) :
  exists w',
    (transcriptYt secondsToMs net args w = (Ok None, w')
     /\ exists cat msg, cat ∈ categories
                        /\ console w' = console w ++ [log_line cat msg])
    \/ (exists segs,
          transcriptYt secondsToMs net args w = (Ok (Some segs), w')
          /\ segs <> []
          /\ (Exists nan_start segs \/ StronglySorted le_start segs)
          /\ console w' = console w).
Proof.
  unfold transcriptYt, try_catch.
  pose proof (PipelineFacts.transcriptYt_try_outcome secondsToMs net args w) as H.
  destruct (transcriptYt_try secondsToMs net args w) as [r w1].
  destruct H as [(cat & msg & Hr & Hcat & Hc)
                | [(segs & Hr & Hne & Hs & Hc) | (e & Hr & Hc)]];
    simpl in Hr, Hc; subst r.
  - exists w1. left. split; [reflexivity|]. now exists cat, msg.
  - exists w1. right. now exists segs.
  - destruct (PipelineFacts.transcriptYt_catch_outcome e w1)
      as (cat & msg & Hcat & ->).
    eexists. left. split; [reflexivity|]. exists cat, msg.
    split; [exact Hcat | simpl; now rewrite Hc].
Qed.

(** ** C2: what the caller learns of a failure *)

(** A network on which every call of [fetch] is rejected. *)
Example transcriptYt_network_down :
  transcriptYt (fun _ => Num 0) (fun _ _ => Throw (JsError "fetch failed"))
    (mkArgs "https://youtu.be/dQw4w9WgXcQ" None) (mkWorld [] 0)
  = (Ok None, mkWorld ["[other_error] fetch failed"] 1).
Proof. vm_compute. reflexivity. Qed.

(** C2 fails on the code.  For a URL without a video identifier the pipeline
    logs its failure under [invalid_url] and returns [null]; nothing but the
    console receives the category, and the handler answers 404 with
    [reason] and [category] both [null], whatever the network does. *)
Theorem GET_exposes_no_error_record
    (secondsToMs : string -> number) (net : Network) :
  transcriptYt secondsToMs net (mkArgs "https://example.com/" (Some ["pt"; "en"]))
    (mkWorld [] 0)
  = (Ok None, mkWorld ["[invalid_url] unable_to_extract_video_id"] 0)
  /\ GET secondsToMs net (Some "https://example.com/") (mkWorld [] 0)
     = (Ok (mkApiResponse 404
              (NoTranscriptBody "No transcript available." None None)),
        mkWorld ["[invalid_url] unable_to_extract_video_id"] 0).
Proof. split; vm_compute; reflexivity. Qed.

(** Whatever the input and the network, an answer 404 of the handler carries
    no reason and no category. *)
Lemma GET_404_body secondsToMs net videoUrl w resp w' :
  GET secondsToMs net videoUrl w = (Ok resp, w') ->
  api_status resp = 404%Z ->
  api_body resp = NoTranscriptBody "No transcript available." None None.
Proof.
  unfold GET. destruct (truthy videoUrl) as [u|].
  2:{ intros [= <- _]. discriminate. }
  unfold bind.
  destruct (transcriptYt secondsToMs net _ w) as [[t|e] w1]; [|discriminate].
  destruct (negb _); intros [= <- _]; [reflexivity | discriminate].
Qed.


(** ** Soundness of the matcher *)

Module MatchFacts.

Import StrPred.

Lemma lit_sound {R} (l : string) prev s cs (k : cont R) x :
  lit l prev s cs k = Some x ->
  exists s' prev', s = l +:+ s' /\ k prev' s' cs = Some x.
Proof.
  revert prev s. induction l as [|a l IH]; intros prev s H; simpl in H.
  - now exists s, prev.
  - destruct s as [|c s]; [discriminate|].
    destruct (Ascii.eqb_spec a c) as [-> | _]; [|discriminate].
    destruct (IH _ _ H) as (s' & prev' & -> & Hk). now exists s', prev'.
Qed.

Lemma star_sound {R} (p : ascii -> bool) (k : cont R) prev s cs x :
  star p k prev s cs = Some x ->
  exists a s' prev', s = a +:+ s' /\ all p a = true /\ k prev' s' cs = Some x.
Proof.
  revert prev. induction s as [|c s IH]; intros prev H; simpl in H.
  - now exists "", "", prev.
  - destruct (p c) eqn:Hc; [|now exists "", (String c s), prev].
    destruct (star p k (Some c) s cs) as [y|] eqn:E; simpl in H.
    + injection H as ->. destruct (IH _ E) as (a & s' & prev' & -> & Ha & Hk).
      exists (String c a), s', prev'. simpl. now rewrite Hc, Ha.
    + now exists "", (String c s), prev.
Qed.

Lemma star_lazy_sound {R} (p : ascii -> bool) (k : cont R) prev s cs x :
  star_lazy p k prev s cs = Some x ->
  exists a s' prev', s = a +:+ s' /\ all p a = true /\ k prev' s' cs = Some x.
Proof.
  revert prev. induction s as [|c s IH]; intros prev H; simpl in H.
  - destruct (k prev "" cs) as [y|] eqn:E; simpl in H; [|discriminate].
    injection H as ->. now exists "", "", prev.
  - destruct (k prev (String c s) cs) as [y|] eqn:E; simpl in H.
    + injection H as ->. now exists "", (String c s), prev.
    + destruct (p c) eqn:Hc; [|discriminate].
      destruct (IH _ H) as (a & s' & prev' & -> & Ha & Hk).
      exists (String c a), s', prev'. simpl. now rewrite Hc, Ha.
Qed.

(** A successful run of the matcher consumed a text that the expression
    matches, and handed the captures of that match to its continuation. *)
Lemma rmatch_sound {R} (r : regex) prev s cs (k : cont R) x :
  rmatch r prev s cs k = Some x ->
  exists a s' prev' n,
    s = a +:+ s' /\ sem r a n /\ k prev' s' (n ++ cs) = Some x.
Proof.
  revert prev s cs k x.
  induction r as [l|p|r1 IH1 r2 IH2|r1 IH1 r2 IH2|r1 IH1|p|p|i r1 IH1|];
    intros prev s cs k x H; cbn [rmatch] in H.
  - apply lit_sound in H as (s' & prev' & -> & Hk).
    exists l, s', prev', []. now repeat split.
  - destruct s as [|c s]; [discriminate|].
    destruct (p c) eqn:Hc; [|discriminate].
    exists (String c ""), s, (Some c), []. repeat split; [|exact H].
    now exists c.
  - apply IH1 in H as (a1 & s1 & prev1 & n1 & -> & H1 & H).
    apply IH2 in H as (a2 & s2 & prev2 & n2 & -> & H2 & H).
    exists (a1 +:+ a2), s2, prev2, (n2 ++ n1).
    rewrite StrFacts.app_assoc, <- app_assoc. repeat split; [|exact H].
    now exists a1, a2, n1, n2.
  - destruct (rmatch r1 prev s cs k) as [y|] eqn:E; simpl in H.
    + injection H as ->. apply IH1 in E as (a & s' & prev' & n & -> & Hs & Hk).
      exists a, s', prev', n. repeat split; [now left | exact Hk].
    + apply IH2 in H as (a & s' & prev' & n & -> & Hs & Hk).
      exists a, s', prev', n. repeat split; [now right | exact Hk].
  - destruct (rmatch r1 prev s cs k) as [y|] eqn:E; simpl in H.
    + injection H as ->. apply IH1 in E as (a & s' & prev' & n & -> & Hs & Hk).
      exists a, s', prev', n. repeat split; [now left | exact Hk].
    + exists "", s, prev, []. repeat split; [now right | exact H].
  - apply star_sound in H as (a & s' & prev' & -> & Ha & Hk).
    exists a, s', prev', []. now repeat split.
  - apply star_lazy_sound in H as (a & s' & prev' & -> & Ha & Hk).
    exists a, s', prev', []. now repeat split.
  - apply IH1 in H as (a & s' & prev' & n & -> & Hs & Hk).
    rewrite StrFacts.consumed_app in Hk.
    exists a, s', prev', ((i, a) :: n). repeat split; [|exact Hk].
    now exists n.
  - destruct (xorb _ _); [|discriminate].
    exists "", s, prev, []. now repeat split.
Qed.

Lemma match_here_sound r prev s cs s' :
  match_here r prev s = Some (cs, s') ->
  exists a, s = a +:+ s' /\ sem r a cs.
Proof.
  unfold match_here. intros H.
  apply rmatch_sound in H as (a & s1 & prev' & n & -> & Hs & [= <- <-]).
  rewrite app_nil_r. now exists a.
Qed.

Lemma occurs_cons r c s cs : occurs r s cs -> occurs r (String c s) cs.
Proof.
  intros (pre & a & post & -> & Hs). now exists (String c pre), a, post.
Qed.

Lemma exec_from_sound r prev s cs :
  exec_from r prev s = Some cs -> occurs r s cs.
Proof.
  revert prev. induction s as [|c s IH]; intros prev H; simpl in H.
  - destruct (match_here r prev "") as [[m s']|] eqn:E; [|discriminate].
    injection H as ->. apply match_here_sound in E as (a & -> & Hs).
    now exists "", a, s'.
  - destruct (match_here r prev (String c s)) as [[m s']|] eqn:E.
    + injection H as ->. apply match_here_sound in E as (a & -> & Hs).
      now exists "", a, s'.
    + apply occurs_cons. eapply IH, H.
Qed.


Lemma startsWith_app (y z : string) : Str.startsWith (y +:+ z) y = true.
Proof.
  unfold Str.startsWith.
  now rewrite (proj2 (TrackFacts.strip_spec y (y +:+ z) z) eq_refl).
Qed.

Lemma includes_app (pre y post : string) :
  Str.includes (pre +:+ y +:+ post) y = true.
Proof.
  induction pre as [|c pre IH].
  - cbn [append]. destruct (y +:+ post) eqn:E; cbn [Str.includes];
      rewrite <- E, startsWith_app; reflexivity.
  - cbn [append Str.includes]. rewrite IH. apply orb_true_r.
Qed.

End MatchFacts.


(** ** More on [extractVideoId] and [extractInnertubeApiKey] *)

Lemma rep_sem (n : nat) (p : ascii -> bool) (a : string) (cs : caps) :
  sem (Rep n p) a cs ->
  String.length a = n /\ StrPred.all p a = true /\ cs = [].
Proof.
  revert a cs. induction n as [|n IH]; intros a cs H; cbn [Rep sem] in H.
  - destruct H as [-> ->]. now repeat split.
  - destruct H as (a1 & a2 & c1 & c2 & -> & (c & -> & Hc & ->) & H2 & ->).
    apply IH in H2 as (<- & Ha & ->). simpl. now rewrite Hc, Ha.
Qed.

Lemma plus_sem (p : ascii -> bool) (a : string) (cs : caps) :
  sem (Plus p) a cs -> a <> "" /\ StrPred.all p a = true /\ cs = [].
Proof.
  cbn [Plus sem].
  intros (a1 & a2 & c1 & c2 & -> & (c & -> & Hc & ->) & (Ha & ->) & ->).
  simpl. now rewrite Hc, Ha.
Qed.

(** The identifier found is a token that follows a marker in the URL. *)
Lemma video_id_occurs (url id : string) :
  extractVideoId url = Some id ->
  is_video_id id = true
  /\ exists marker,
       marker ∈ video_url_markers /\ Str.includes url (marker +:+ id) = true.
Proof.
  unfold extractVideoId, exec.
  destruct (exec_from video_id_re None url) as [m|] eqn:E; [|discriminate].
  apply MatchFacts.exec_from_sound in E as (pre & a & post & -> & Hs).
  cbn [video_id_re sem] in Hs.
  destruct Hs as (a1 & r1 & c1 & n1 & -> & _ & Hs & ->).
  destruct Hs as (a2 & r2 & c2 & n2 & -> & _ & Hs & ->).
  destruct Hs as (core & idp & c3 & n3 & -> & Hcore & (c4 & Hrep & ->) & ->).
  apply rep_sem in Hrep as (Hlen & Hall & ->).
  assert (core ∈ video_url_markers /\ c3 = []) as [Hmarker ->].
  { unfold video_url_markers.
    destruct Hcore as [(x & y & cx & cy & -> & [-> ->] & Hy & ->) | [-> ->]].
    - destruct Hy as [[-> ->] | [[-> ->] | [[-> ->] | [-> ->]]]];
        (split; [set_solver | reflexivity]).
    - split; [set_solver | reflexivity]. }
  cbn [app group Nat.eqb]. intros [= <-]. split.
  - unfold is_video_id. now rewrite Hlen, Hall.
  - exists core. split; [exact Hmarker|].
    rewrite !StrFacts.app_assoc, <- 2!StrFacts.app_assoc.
    rewrite <- (StrFacts.app_assoc core idp post).
    apply MatchFacts.includes_app.
Qed.

(** X1. What [extractVideoId] returns is 11 characters of [[A-Za-z0-9_-]]
    that stand in the URL right after one of the five markers; so a string
    in which no marker is followed by such a token gives [null]. *)
Theorem extractVideoId_sound (url id : string) :
  extractVideoId url = Some id ->
  is_video_id id = true
  /\ exists marker,
       marker ∈ video_url_markers /\ Str.includes url (marker +:+ id) = true.
Proof. apply video_id_occurs. Qed.

Lemma extractVideoId_sound_witness :
  is_video_id "dQw4w9WgXcQ" = true
  /\ exists marker,
       marker ∈ video_url_markers
       /\ Str.includes "see https://youtu.be/dQw4w9WgXcQ?t=1"
            (marker +:+ "dQw4w9WgXcQ") = true.
Proof.
  apply (extractVideoId_sound "see https://youtu.be/dQw4w9WgXcQ?t=1").
  vm_compute. reflexivity.
Defined.

(** The key found is a quoted value of the page. *)
Lemma api_key_occurs (html key : string) :
  extractInnertubeApiKey html = Some key ->
  key <> ""
  /\ StrPred.all Chars.is_key_char key = true
  /\ exists ws,
       StrPred.all Chars.is_space ws = true
       /\ Str.includes html
            (DQ +:+ "INNERTUBE_API_KEY" +:+ DQ +:+ ":" +:+ ws +:+ DQ
             +:+ key +:+ DQ) = true.
Proof.
  unfold extractInnertubeApiKey, exec.
  destruct (exec_from api_key_re None html) as [m|] eqn:E; [|discriminate].
  apply MatchFacts.exec_from_sound in E as (pre & a & post & -> & Hs).
  cbn [api_key_re Seqs sem] in Hs.
  destruct Hs as (a1 & r1 & c1 & n1 & -> & [-> ->] & Hs & ->).
  destruct Hs as (a2 & r2 & c2 & n2 & -> & [-> ->] & Hs & ->).
  destruct Hs as (a3 & r3 & c3 & n3 & -> & [-> ->] & Hs & ->).
  destruct Hs as (a4 & r4 & c4 & n4 & -> & [-> ->] & Hs & ->).
  destruct Hs as (ws & r5 & c5 & n5 & -> & [Hws ->] & Hs & ->).
  destruct Hs as (a6 & r6 & c6 & n6 & -> & [-> ->] & Hs & ->).
  destruct Hs as (k & r7 & c7 & n7 & -> & (c8 & Hk & ->) & [-> ->] & ->).
  apply (plus_sem Chars.is_key_char) in Hk as (Hne & Hall & ->).
  cbn [app group Nat.eqb]. intros [= <-]. repeat split; try assumption.
  exists ws. split; [exact Hws|]. apply MatchFacts.includes_app.
Qed.

(** X2. What [extractInnertubeApiKey] returns is a non-empty run of
    [[a-zA-Z0-9_-]] that the page holds, between double quotes, as the value
    of the quoted name INNERTUBE_API_KEY (a colon and optional white space
    in between). *)
Theorem extractInnertubeApiKey_sound (html key : string) :
  extractInnertubeApiKey html = Some key ->
  key <> ""
  /\ StrPred.all Chars.is_key_char key = true
  /\ exists ws,
       StrPred.all Chars.is_space ws = true
       /\ Str.includes html
            (DQ +:+ "INNERTUBE_API_KEY" +:+ DQ +:+ ":" +:+ ws +:+ DQ
             +:+ key +:+ DQ) = true.
Proof. apply api_key_occurs. Qed.

Lemma extractInnertubeApiKey_sound_witness :
  "AIza_Key-1" <> ""
  /\ StrPred.all Chars.is_key_char "AIza_Key-1" = true
  /\ exists ws,
       StrPred.all Chars.is_space ws = true
       /\ Str.includes
            ("{" +:+ DQ +:+ "INNERTUBE_API_KEY" +:+ DQ +:+ ": " +:+ DQ
             +:+ "AIza_Key-1" +:+ DQ +:+ "}")
            (DQ +:+ "INNERTUBE_API_KEY" +:+ DQ +:+ ":" +:+ ws +:+ DQ
             +:+ "AIza_Key-1" +:+ DQ) = true.
Proof.
  apply (extractInnertubeApiKey_sound
           ("{" +:+ DQ +:+ "INNERTUBE_API_KEY" +:+ DQ +:+ ": " +:+ DQ
            +:+ "AIza_Key-1" +:+ DQ +:+ "}")).
  vm_compute. reflexivity.
Defined.


(** ** Calls of [fetch] *)

Module FetchFacts.

Lemma fetches_ret {A} (a : A) : fetches 0 0 (ret a).
Proof. intros w. simpl. lia. Qed.

Lemma fetches_throw {A} (e : exn) : fetches 0 0 (@throw A e).
Proof. intros w. simpl. lia. Qed.

Lemma fetches_lift {A} (r : result A) : fetches 0 0 (lift r).
Proof. intros w. simpl. lia. Qed.

Lemma fetches_log cat msg : fetches 0 0 (logError cat msg).
Proof. intros w. simpl. lia. Qed.

Lemma fetches_fetch net req : fetches 1 1 (fetch net req).
Proof. intros w. simpl. lia. Qed.

Lemma fetches_weaken {A} lo hi lo' hi' (m : M A) :
  fetches lo hi m -> lo' <= lo -> hi <= hi' -> fetches lo' hi' m.
Proof. intros H ? ? w. specialize (H w). lia. Qed.

(** After a first part that fetched at least [lo] times, at least [lo] calls
    were made even when the rest is not reached. *)
Lemma fetches_bind {A B} lo hi hi' (m : M A) (f : A -> M B) :
  fetches lo hi m -> (forall a, fetches 0 hi' (f a)) ->
  fetches lo (hi + hi') (bind m f).
Proof.
  intros Hm Hf w. unfold bind. specialize (Hm w).
  destruct (m w) as [[a|e] w1]; simpl in *; [|lia].
  specialize (Hf a w1). lia.
Qed.

Lemma fetches_if {A} lo hi (b : bool) (m1 m2 : M A) :
  fetches lo hi m1 -> fetches lo hi m2 -> fetches lo hi (if b then m1 else m2).
Proof. now destruct b. Qed.

Lemma fetches_try {A} lo hi (m : M A) (h : exn -> M A) :
  fetches lo hi m -> (forall e, fetches 0 0 (h e)) ->
  fetches lo hi (try_catch m h).
Proof.
  intros Hm Hh w. unfold try_catch. specialize (Hm w).
  destruct (m w) as [[a|e] w1]; simpl in *; [lia|].
  specialize (Hh e w1). lia.
Qed.

Ltac count :=
  repeat first
    [ apply fetches_ret | apply fetches_throw | apply fetches_lift
    | apply fetches_log | apply fetches_fetch
    | apply fetches_if ].

Lemma fetches_fetchText net url headers : fetches 1 1 (fetchText net url headers).
Proof.
  unfold fetchText. apply (fetches_bind 1 1 0); [apply fetches_fetch|].
  intros res. count.
Qed.

Lemma fetches_fetchWatchHtml net id :
  fetches 1 2 (fetchWatchHtml id (fetchText net)).
Proof.
  unfold fetchWatchHtml.
  apply (fetches_bind 1 1 1); [apply fetches_fetchText | intros html].
  apply fetches_if; [|eapply fetches_weaken; [apply fetches_ret|lia..]].
  destruct (exec consent_v_re html);
    [|eapply fetches_weaken; [apply fetches_throw|lia..]].
  eapply fetches_weaken;
    [apply (fetches_bind 1 1 0); [apply fetches_fetchText|] | lia..].
  intros html'. count.
Qed.

Lemma fetches_fetchInnertubePlayer net key id :
  fetches 1 1 (fetchInnertubePlayer net key id).
Proof.
  unfold fetchInnertubePlayer.
  apply (fetches_bind 1 1 0); [apply fetches_fetch|]. intros res. count.
Qed.

Lemma fetches_fetchCaptions net u : fetches 1 1 (fetchCaptions net u).
Proof.
  unfold fetchCaptions.
  apply (fetches_bind 1 1 0); [apply fetches_fetch|]. intros res. count.
Qed.

Lemma fetches_log_null cat msg :
  fetches 0 0
    (after logError cat msg do ret (None : option (list TranscriptSegment))).
Proof.
  apply (fetches_bind 0 0 0); [apply fetches_log | intros; apply fetches_ret].
Qed.

Lemma fetches_catch e : fetches 0 0 (transcriptYt_catch e).
Proof.
  unfold transcriptYt_catch.
  apply (fetches_bind 0 0 0); [|intros; apply fetches_ret]. count.
Qed.

(** Once the identifier is there, the [try] block fetches the page (one or
    two calls), then at most the player answer and the caption document. *)
Lemma fetches_try_with_id secondsToMs net args id :
  truthy (extractVideoId (videoUrl args)) = Some id ->
  fetches 1 4 (transcriptYt_try secondsToMs net args).
Proof.
  intros Hid. unfold transcriptYt_try. rewrite Hid.
  apply (fetches_bind 1 2 2); [apply fetches_fetchWatchHtml | intros html].
  destruct (truthy (extractInnertubeApiKey html)) as [key|];
    [|eapply fetches_weaken; [apply fetches_log_null|lia..]].
  apply (fetches_bind 0 1 1);
    [eapply fetches_weaken; [apply fetches_fetchInnertubePlayer|lia..]|].
  intros data.
  apply (fetches_bind 0 0 1); [apply fetches_lift | intros _]. cbv zeta.
  destruct (default [] _);
    [eapply fetches_weaken; [apply fetches_log_null|lia..]|].
  destruct (chooseTrack _ _ _ _);
    [|eapply fetches_weaken; [apply fetches_log_null|lia..]].
  apply (fetches_bind 0 1 0);
    [eapply fetches_weaken; [apply fetches_fetchCaptions|lia..]|].
  intros xml. destruct (normalizeSegments _);
    [apply fetches_log_null | apply fetches_ret].
Qed.

Lemma truthy_video_id url id :
  extractVideoId url = Some id -> truthy (extractVideoId url) = Some id.
Proof.
  intros H. rewrite H. apply video_id_occurs in H as [H _].
  unfold is_video_id in H. destruct id; [discriminate H | reflexivity].
Qed.

End FetchFacts.

(** X3. [fetchWatchHtml] over [fetchText] calls [fetch] once or twice and
    writes nothing to the console; the page it returns never shows the
    consent form. *)
Theorem fetchWatchHtml_no_consent_form (net : Network) (id : string) (w : World) :
  console (snd (fetchWatchHtml id (fetchText net) w)) = console w
  /\ fetched w + 1 <= fetched (snd (fetchWatchHtml id (fetchText net) w))
     <= fetched w + 2
  /\ match fst (fetchWatchHtml id (fetchText net) w) with
     | Ok html => Str.includes html consent_marker = false
     | Throw _ => True
     end.
Proof.
  split; [apply PipelineFacts.quiet_fetchWatchHtml|].
  split; [apply FetchFacts.fetches_fetchWatchHtml|].
  unfold fetchWatchHtml, bind.
  destruct (fetchText net _ _ w) as [[html|e] w1]; [|exact I].
  destruct (Str.includes html consent_marker) eqn:E1; [|exact E1].
  destruct (exec consent_v_re html); [|exact I].
  destruct (fetchText net _ _ w1) as [[html2|e] w2]; [|exact I].
  destruct (Str.includes html2 consent_marker) eqn:E2; [exact I | exact E2].
Qed.

(** X4. A run of [transcriptYt] on a URL without a video identifier calls
    [fetch] not at all: it logs under [invalid_url] and returns [null].  On
    a URL with an identifier it makes at least one and at most four calls. *)
Theorem transcriptYt_fetch_count
    (secondsToMs : string -> number) (net : Network)
    (args : TranscriptYtArgs) (w : World) :
  match extractVideoId (videoUrl args) with
  | None =>
      transcriptYt secondsToMs net args w
      = (Ok None,
         advanced w 0 [log_line "invalid_url" "unable_to_extract_video_id"])
  | Some _ =>
      fetched w + 1 <= fetched (snd (transcriptYt secondsToMs net args w))
      <= fetched w + 4
  end.
Proof.
  destruct (extractVideoId (videoUrl args)) as [id|] eqn:Hid.
  - apply FetchFacts.truthy_video_id in Hid.
    apply (FetchFacts.fetches_try 1 4);
      [eapply FetchFacts.fetches_try_with_id, Hid | apply FetchFacts.fetches_catch].
  - unfold transcriptYt, try_catch, transcriptYt_try. rewrite Hid.
    unfold advanced. cbn. now rewrite Nat.add_0_r.
Qed.


(** ** The [catch] block on particular messages *)

Module CatchFacts.

Lemma advanced_eq w n ls c f :
  c = console w ++ ls -> f = fetched w + n ->
  {| console := c; fetched := f |} = advanced w n ls.
Proof. now intros -> ->. Qed.

Lemma catch_other (msg : string) (w : World) :
  Str.includes msg "yt_request_failed_" = false ->
  msg ∉ "ip_blocked" :: playability_messages ->
  msg <> "" ->
  transcriptYt_catch (JsError msg) w
  = (Ok None, advanced w 0 [log_line "other_error" msg]).
Proof.
  intros Hinc Hnot Hne. unfold transcriptYt_catch. rewrite Hinc.
  unfold playability_messages in Hnot.
  repeat (apply not_elem_of_cons in Hnot as [?%String.eqb_neq Hnot]).
  repeat match goal with H : String.eqb _ _ = false |- _ => rewrite H; clear H end.
  destruct msg; [now destruct Hne|]. cbn.
  unfold advanced. now rewrite Nat.add_0_r.
Qed.

Lemma catch_network (msg : string) (w : World) :
  Str.includes msg "yt_request_failed_" || String.eqb msg "ip_blocked" = true ->
  transcriptYt_catch (JsError msg) w
  = (Ok None, advanced w 0 [log_line "network_error" msg]).
Proof.
  intros H. unfold transcriptYt_catch. rewrite H. cbn.
  unfold advanced. now rewrite Nat.add_0_r.
Qed.

Lemma catch_status (z : Z) (w : World) :
  transcriptYt_catch (JsError (pretty z)) w
  = (Ok None, advanced w 0 [log_line "other_error" (pretty z)]).
Proof.
  destruct (NumFacts.pretty_Z_shape z) as [Hall Hne].
  apply catch_other; [|  |exact Hne].
  - now apply (NumFacts.all_not_includes is_number_char).
  - unfold playability_messages. intros Hin.
    repeat (apply elem_of_cons in Hin as [Hin | Hin];
            [rewrite Hin in Hall; discriminate Hall|]).
    now apply elem_of_nil in Hin.
Qed.

Lemma fetchText_http_error net url headers w resp :
  net (fetched w) (mkRequest HttpGet url headers None) = Ok resp ->
  res_ok resp = false ->
  fetchText net url headers w
  = (Throw (JsError (pretty (res_status resp))), advanced w 1 []).
Proof.
  intros Hnet Hok. unfold fetchText, bind, fetch. rewrite Hnet, Hok. cbn.
  f_equal. apply advanced_eq; [now rewrite app_nil_r | lia].
Qed.

Lemma fetchText_ok net url headers w resp s :
  net (fetched w) (mkRequest HttpGet url headers None) = Ok resp ->
  res_ok resp = true -> res_text resp = Ok s ->
  fetchText net url headers w = (Ok s, advanced w 1 []).
Proof.
  intros Hnet Hok Ht. unfold fetchText, bind, fetch. rewrite Hnet, Hok, Ht. cbn.
  f_equal. apply advanced_eq; [now rewrite app_nil_r | lia].
Qed.

Lemma advanced_advanced w n ls m ks :
  advanced (advanced w n ls) m ks = advanced w (n + m) (ls ++ ks).
Proof. unfold advanced. cbn. f_equal; [now rewrite app_assoc | lia]. Qed.

End CatchFacts.

(** X5. When the watch page answers with a status outside 200..299, the run
    ends after that one call: [fetchText] throws an error whose message is
    the status alone, and [transcriptYt] logs it under [other_error] (not
    [network_error]) and returns [null]. *)
Theorem transcriptYt_page_http_error
    (secondsToMs : string -> number) (net : Network)
    (args : TranscriptYtArgs) (w : World) (id : string) (resp : Response) :
  extractVideoId (videoUrl args) = Some id ->
  net (fetched w) (watch_request id) = Ok resp ->
  res_ok resp = false ->
  transcriptYt secondsToMs net args w
  = (Ok None,
     advanced w 1 [log_line "other_error" (pretty (res_status resp))]).
Proof.
  intros Hid Hnet Hok. apply FetchFacts.truthy_video_id in Hid.
  unfold transcriptYt, try_catch, transcriptYt_try. rewrite Hid.
  unfold bind at 1. unfold fetchWatchHtml. unfold bind at 1.
  rewrite (CatchFacts.fetchText_http_error net _ _ w resp Hnet Hok).
  rewrite CatchFacts.catch_status, CatchFacts.advanced_advanced. reflexivity.
Qed.

Lemma transcriptYt_page_http_error_witness :
  transcriptYt (fun _ => Num 0)
    (fun _ _ => Ok (mkResponse 404 (Ok "Not Found") (Throw Thrown)))
    (mkArgs "https://youtu.be/dQw4w9WgXcQ" None) (mkWorld [] 0)
  = (Ok None, advanced (mkWorld [] 0) 1 [log_line "other_error" (pretty 404%Z)]).
Proof.
  apply (transcriptYt_page_http_error _ _ _ _ "dQw4w9WgXcQ"
           (mkResponse 404 (Ok "Not Found") (Throw Thrown)));
    reflexivity.
Defined.


(** ** When no track can be selected *)

Module NoTrackFacts.

Lemma scan_nil prefs : scan prefs [] = None.
Proof. induction prefs as [|p prefs IH]; [reflexivity | exact IH]. Qed.

Lemma filter_nil_iff {A} (f : A -> bool) (l : list A) :
  List.filter f l = [] <-> Forall (fun x => f x = false) l.
Proof.
  induction l as [|x l IH]; simpl.
  - split; [constructor | reflexivity].
  - destruct (f x) eqn:E.
    + split; [discriminate | intros H; inversion H; congruence].
    + rewrite IH. split; [now constructor | now inversion 1].
Qed.

Lemma no_url_filters tracks :
  Forall (fun t => baseUrl t = "") tracks <->
  List.filter is_manual tracks = [] /\ List.filter is_asr tracks = [].
Proof.
  rewrite !filter_nil_iff. unfold is_manual, is_asr.
  rewrite <- Forall_and. apply Forall_iff. intros t.
  destruct (String.eqb (kind t) "asr"); destruct (baseUrl t); cbn;
    intuition congruence.
Qed.

Lemma usable_at_none tracks i :
  Forall (fun t => baseUrl t = "") tracks -> usable_at tracks i = None.
Proof.
  intros H. unfold usable_at, track_at.
  destruct (0 <=? i)%Z; [|reflexivity].
  destruct (tracks !! Z.to_nat i) as [t|] eqn:E; [|reflexivity].
  rewrite Forall_forall in H.
  now rewrite (H t (list_elem_of_lookup_2 _ _ _ E)).
Qed.

Lemma first_usable_none tracks idxs :
  Forall (fun t => baseUrl t = "") tracks -> first_usable tracks idxs = None.
Proof.
  intros H. induction idxs as [|i idxs IH]; [reflexivity|].
  simpl. now rewrite usable_at_none.
Qed.

(** No selection is made exactly when no track has a URL. *)
Lemma chooseTrack_null_iff tracks prefs d idxs :
  chooseTrack tracks prefs d idxs = None
  <-> Forall (fun t => baseUrl t = "") tracks.
Proof.
  split.
  - intros H. apply no_url_filters. unfold chooseTrack in H.
    destruct (orelse _ _); [discriminate|].
    destruct (d ≫= usable_at tracks); [discriminate|].
    destruct (idxs ≫= first_usable tracks); [discriminate|].
    destruct (List.filter is_manual tracks); [|discriminate].
    destruct (List.filter is_asr tracks); [|discriminate]. now split.
  - intros H. unfold chooseTrack.
    destruct (proj1 (no_url_filters tracks) H) as [-> ->].
    rewrite !scan_nil. cbn [orelse].
    destruct d as [i|]; cbn [mbind option_bind];
      rewrite ?usable_at_none by exact H;
      (destruct idxs as [l|]; cbn [mbind option_bind];
       rewrite ?first_usable_none by exact H; reflexivity).
Qed.

End NoTrackFacts.

(** ** Runs on a network that serves the page and the player answer *)

Module RunFacts.

Lemma fetchWatchHtml_served net w id html key :
  page_served net w id html key ->
  fetchWatchHtml id (fetchText net) w = (Ok html, advanced w 1 []).
Proof.
  intros (resp & Hnet & Hok & Htext & Hmark & _).
  unfold fetchWatchHtml, bind.
  rewrite (CatchFacts.fetchText_ok net _ _ w resp html Hnet Hok Htext).
  now rewrite Hmark.
Qed.

Lemma bind_ext {A B} (m : M A) (f g : A -> M B) w :
  (forall a w', f a w' = g a w') -> bind m f w = bind m g w.
Proof. intros H. unfold bind. destruct (m w) as [[a|e] w']; [apply H | reflexivity]. Qed.

Lemma truthy_key html key :
  extractInnertubeApiKey html = Some key ->
  truthy (extractInnertubeApiKey html) = Some key.
Proof.
  intros H. rewrite H. apply api_key_occurs in H as [H _].
  destruct key; [now destruct H | reflexivity].
Qed.

(** Up to the call of the player endpoint. *)
Lemma try_to_player secondsToMs net args w id html key :
  extractVideoId (videoUrl args) = Some id ->
  page_served net w id html key ->
  transcriptYt_try secondsToMs net args w
  = bind (fetchInnertubePlayer net key id)
      (after_player secondsToMs net args) (advanced w 1 []).
Proof.
  intros Hid Hpage. unfold transcriptYt_try.
  rewrite (FetchFacts.truthy_video_id _ _ Hid). unfold bind at 1.
  rewrite (fetchWatchHtml_served net w id html key Hpage).
  destruct Hpage as (_ & _ & _ & _ & _ & Hkey).
  rewrite (truthy_key _ _ Hkey).
  apply bind_ext. intros data w2. unfold after_player.
  apply bind_ext. intros _ w3. cbv zeta.
  fold (renderer_of data). fold (tracks_of data).
  fold (default_index_of data). fold (source_indices_of data).
  fold (picked_of args data).
  destruct (tracks_of data); [reflexivity|].
  destruct (picked_of args data); [|reflexivity].
  apply bind_ext. intros xml w4. now destruct (normalizeSegments _).
Qed.

Lemma player_http_error net w key id resp :
  net (fetched w + 1) (player_request key id) = Ok resp ->
  res_ok resp = false ->
  fetchInnertubePlayer net key id (advanced w 1 [])
  = (Throw (JsError (if (res_status resp =? 429)%Z then "ip_blocked"
                     else "yt_request_failed_" +:+ pretty (res_status resp))),
     advanced w 2 []).
Proof.
  intros Hnet Hok. unfold fetchInnertubePlayer, bind, fetch.
  cbn [fetched advanced]. fold (player_request key id). rewrite Hnet, Hok.
  destruct (res_status resp =? 429)%Z; cbn; unfold advanced;
    repeat f_equal; lia.
Qed.

Lemma player_ok net w key id data :
  player_served net w key id data ->
  fetchInnertubePlayer net key id (advanced w 1 []) = (Ok data, advanced w 2 []).
Proof.
  intros (resp & Hnet & Hok & Hjson). unfold fetchInnertubePlayer, bind, fetch.
  cbn [fetched advanced]. fold (player_request key id). rewrite Hnet, Hok.
  assert ((res_status resp =? 429)%Z = false) as ->.
  { unfold res_ok in Hok. lia. }
  cbn. rewrite Hjson. unfold advanced. repeat f_equal. lia.
Qed.

(** Once the player has answered. *)
Lemma try_with_data secondsToMs net args w id html key data :
  extractVideoId (videoUrl args) = Some id ->
  page_served net w id html key ->
  player_served net w key id data ->
  transcriptYt_try secondsToMs net args w
  = after_player secondsToMs net args data (advanced w 2 []).
Proof.
  intros Hid Hpage Hplayer.
  rewrite (try_to_player _ _ _ _ id html key Hid Hpage). unfold bind at 1.
  now rewrite (player_ok net w key id data Hplayer).
Qed.

Lemma assertPlayability_throws ps e :
  assertPlayability ps = Throw e ->
  exists msg, msg ∈ playability_messages /\ e = JsError msg.
Proof.
  unfold assertPlayability, playability_messages.
  destruct (ps ≫= status) as [st|]; [|discriminate].
  destruct (negb _ || _); [discriminate|].
  set (r := or_empty (ps ≫= reason)). clearbody r.
  destruct (String.eqb st "LOGIN_REQUIRED");
    destruct (Str.includes r "not a bot");
    destruct (Str.includes r "inappropriate");
    destruct (String.eqb st "ERROR" && Str.includes r "unavailable");
    cbn; intros [= <-]; eexists; (split; [|reflexivity]); set_solver.
Qed.

Lemma catch_inaccessible msg w :
  msg ∈ playability_messages ->
  transcriptYt_catch (JsError msg) w
  = (Ok None, advanced w 0 [log_line "inaccessible" msg]).
Proof.
  unfold playability_messages. intros H.
  repeat (apply elem_of_cons in H as [-> | H];
          [cbn; unfold advanced; now rewrite Nat.add_0_r|]).
  now apply elem_of_nil in H.
Qed.

End RunFacts.

(** X6. When the player endpoint answers with a status outside 200..299,
    [transcriptYt] logs under [network_error] and returns [null] after two
    calls: the message is [ip_blocked] for the status 429 and
    [yt_request_failed_] followed by the status otherwise. *)
Theorem transcriptYt_player_http_error
    (secondsToMs : string -> number) (net : Network) (args : TranscriptYtArgs)
    (w : World) (id html key : string) (resp : Response) :
  extractVideoId (videoUrl args) = Some id ->
  page_served net w id html key ->
  net (fetched w + 1) (player_request key id) = Ok resp ->
  res_ok resp = false ->
  transcriptYt secondsToMs net args w
  = (Ok None,
     advanced w 2
       [log_line "network_error"
          (if (res_status resp =? 429)%Z then "ip_blocked"
           else "yt_request_failed_" +:+ pretty (res_status resp))]).
Proof.
  intros Hid Hpage Hnet Hok. unfold transcriptYt, try_catch.
  rewrite (RunFacts.try_to_player _ _ _ _ id html key Hid Hpage).
  unfold bind at 1. rewrite (RunFacts.player_http_error net w key id resp Hnet Hok).
  rewrite CatchFacts.catch_network, CatchFacts.advanced_advanced; [reflexivity|].
  destruct (res_status resp =? 429)%Z; [reflexivity|].
  apply orb_true_iff. left.
  apply (MatchFacts.includes_app "" "yt_request_failed_").
Qed.

Lemma example_page_served player document :
  page_served (example_net player document) (mkWorld [] 0)
    "dQw4w9WgXcQ" example_page example_key.
Proof. eexists. repeat split. Qed.

Lemma transcriptYt_player_http_error_witness :
  transcriptYt (fun _ => Num 0)
    (example_net (text_response 429 "") (text_response 200 ""))
    example_args (mkWorld [] 0)
  = (Ok None, advanced (mkWorld [] 0) 2 [log_line "network_error" "ip_blocked"]).
Proof.
  apply (transcriptYt_player_http_error _ _ _ _
           "dQw4w9WgXcQ" example_page example_key (text_response 429 "")).
  - reflexivity.
  - apply example_page_served.
  - reflexivity.
  - reflexivity.
Defined.

(** X7. When the player answer is rejected by [assertPlayability], the run
    ends after two calls with the message of the guard, one of its four,
    logged under [inaccessible]. *)
Theorem transcriptYt_unplayable
    (secondsToMs : string -> number) (net : Network) (args : TranscriptYtArgs)
    (w : World) (id html key : string) (data : option PlayerResponse)
    (e : exn) :
  extractVideoId (videoUrl args) = Some id ->
  page_served net w id html key ->
  player_served net w key id data ->
  assertPlayability (data ≫= playabilityStatus) = Throw e ->
  exists msg,
    msg ∈ playability_messages /\ e = JsError msg
    /\ transcriptYt secondsToMs net args w
       = (Ok None, advanced w 2 [log_line "inaccessible" msg]).
Proof.
  intros Hid Hpage Hplayer Hguard.
  destruct (RunFacts.assertPlayability_throws _ _ Hguard) as (msg & Hmsg & ->).
  exists msg. repeat split; [exact Hmsg|].
  unfold transcriptYt, try_catch.
  rewrite (RunFacts.try_with_data _ _ _ _ id html key data Hid Hpage Hplayer).
  unfold after_player, bind at 1, lift. rewrite Hguard.
  now rewrite (RunFacts.catch_inaccessible msg _ Hmsg), CatchFacts.advanced_advanced.
Qed.

Lemma transcriptYt_unplayable_witness :
  exists msg,
    msg ∈ playability_messages /\ JsError "age_restricted" = JsError msg
    /\ transcriptYt (fun _ => Num 0)
         (example_net
            (json_response 200
               (example_data
                  (Some (mkPlayability (Some "LOGIN_REQUIRED")
                           (Some "This video may be inappropriate")))
                  []))
            (text_response 200 ""))
         example_args (mkWorld [] 0)
       = (Ok None, advanced (mkWorld [] 0) 2 [log_line "inaccessible" msg]).
Proof.
  apply (transcriptYt_unplayable _ _ _ _ "dQw4w9WgXcQ" example_page example_key
           (example_data
              (Some (mkPlayability (Some "LOGIN_REQUIRED")
                       (Some "This video may be inappropriate"))) [])).
  - reflexivity.
  - apply example_page_served.
  - eexists. repeat split.
  - reflexivity.
Defined.

(** X8. When the player answer passes the guard and offers no caption
    track, the run ends after two calls with [no_caption_tracks_found]
    logged under [no_captions]; no caption document is requested. *)
Theorem transcriptYt_no_tracks
    (secondsToMs : string -> number) (net : Network) (args : TranscriptYtArgs)
    (w : World) (id html key : string) (data : option PlayerResponse) :
  extractVideoId (videoUrl args) = Some id ->
  page_served net w id html key ->
  player_served net w key id data ->
  assertPlayability (data ≫= playabilityStatus) = Ok tt ->
  tracks_of data = [] ->
  transcriptYt secondsToMs net args w
  = (Ok None,
     advanced w 2 [log_line "no_captions" "no_caption_tracks_found"]).
Proof.
  intros Hid Hpage Hplayer Hguard Htracks. unfold transcriptYt, try_catch.
  rewrite (RunFacts.try_with_data _ _ _ _ id html key data Hid Hpage Hplayer).
  unfold after_player, bind at 1, lift. rewrite Hguard, Htracks. cbn.
  unfold advanced. cbn. repeat f_equal. now rewrite app_nil_r.
Qed.

Lemma transcriptYt_no_tracks_witness :
  transcriptYt (fun _ => Num 0)
    (example_net (json_response 200 None) (text_response 200 ""))
    example_args (mkWorld [] 0)
  = (Ok None,
     advanced (mkWorld [] 0) 2
       [log_line "no_captions" "no_caption_tracks_found"]).
Proof.
  apply (transcriptYt_no_tracks _ _ _ _ "dQw4w9WgXcQ" example_page example_key
           None).
  - reflexivity.
  - apply example_page_served.
  - eexists. repeat split.
  - reflexivity.
  - reflexivity.
Defined.

(** X9. On a network that serves the page, a player answer that passes the
    guard and the caption document of the selected track, [transcriptYt]
    makes three calls and returns the normalized segments of that document,
    logging nothing; when no segment is left it returns [null] with
    [no_segments_after_parsing] logged under [no_captions]. *)
Theorem transcriptYt_served
    (secondsToMs : string -> number) (net : Network) (args : TranscriptYtArgs)
    (w : World) (id html key : string) (data : option PlayerResponse)
    (sel : Selection) (xml : string) :
  extractVideoId (videoUrl args) = Some id ->
  page_served net w id html key ->
  player_served net w key id data ->
  assertPlayability (data ≫= playabilityStatus) = Ok tt ->
  picked_of args data = Some sel ->
  captions_served net w sel xml ->
  transcriptYt secondsToMs net args w
  = match normalizeSegments (of_segment <$> parseSegments secondsToMs xml) with
    | [] =>
        (Ok None,
         advanced w 3 [log_line "no_captions" "no_segments_after_parsing"])
    | segs => (Ok (Some segs), advanced w 3 [])
    end.
Proof.
  intros Hid Hpage Hplayer Hguard Hsel (resp & Hnet & Hok & Htext).
  unfold transcriptYt, try_catch.
  rewrite (RunFacts.try_with_data _ _ _ _ id html key data Hid Hpage Hplayer).
  unfold after_player, bind at 1, lift. rewrite Hguard.
  assert (tracks_of data <> []) as Htracks.
  { intros E. unfold picked_of in Hsel. rewrite E in Hsel.
    rewrite (proj2 (NoTrackFacts.chooseTrack_null_iff [] _ _ _)) in Hsel
      by constructor.
    discriminate Hsel. }
  destruct (tracks_of data) as [|t0 ts]; [now destruct Htracks|].
  rewrite Hsel. unfold bind at 1, fetchCaptions, bind at 1, fetch.
  cbn [fetched advanced]. fold (captions_request sel).
  replace (fetched w + 2 + 0) with (fetched w + 2) by lia.
  rewrite Hnet, Hok. cbn [negb lift]. rewrite Htext.
  destruct (normalizeSegments _); cbn; unfold advanced; cbn;
    repeat f_equal; rewrite ?app_nil_r; try reflexivity; lia.
Qed.

Lemma transcriptYt_served_witness :
  transcriptYt (fun _ => Num 0)
    (example_net (json_response 200 (example_data None example_tracks))
       (text_response 200 example_xml))
    example_args (mkWorld [] 0)
  = match
      normalizeSegments (of_segment <$> parseSegments (fun _ => Num 0) example_xml)
    with
    | [] =>
        (Ok None,
         advanced (mkWorld [] 0) 3
           [log_line "no_captions" "no_segments_after_parsing"])
    | segs => (Ok (Some segs), advanced (mkWorld [] 0) 3 [])
    end.
Proof.
  apply (transcriptYt_served _ _ _ _ "dQw4w9WgXcQ" example_page example_key
           (example_data None example_tracks)
           {| url := "https://video.example/tt?lang=en"; lang := "en" |}).
  - reflexivity.
  - apply example_page_served.
  - eexists. repeat split.
  - reflexivity.
  - reflexivity.
  - eexists. repeat split.
Defined.

Example transcriptYt_served_value :
  transcriptYt (fun _ => Num 0)
    (example_net (json_response 200 (example_data None example_tracks))
       (text_response 200 example_xml))
    example_args (mkWorld [] 0)
  = (Ok (Some [mkSegment "Hi & bye" (Num 1500) (Num 2000)]), mkWorld [] 3).
Proof. vm_compute. reflexivity. Qed.


(** ** More on [chooseTrack] *)

(** X10. [chooseTrack] returns [null] exactly when no track of the list has
    a URL, whatever the preferences and the default hints. *)
Theorem chooseTrack_none_iff_no_url
    (tracks : list CaptionTrack) (prefs : option (list string))
    (d : option Z) (idxs : option (list Z)) :
  chooseTrack tracks prefs d idxs = None
  <-> Forall (fun t => baseUrl t = "") tracks.
Proof. apply NoTrackFacts.chooseTrack_null_iff. Qed.

Lemma usable_at_out_of_bounds tracks i :
  in_bounds tracks i = false -> usable_at tracks i = None.
Proof.
  unfold in_bounds, usable_at, track_at. intros H.
  destruct (0 <=? i)%Z eqn:E; [|reflexivity].
  rewrite (lookup_ge_None_2 tracks (Z.to_nat i)); [reflexivity|]. lia.
Qed.

Lemma first_usable_in_bounds tracks idxs :
  first_usable tracks idxs
  = first_usable tracks (List.filter (in_bounds tracks) idxs).
Proof.
  induction idxs as [|i idxs IH]; [reflexivity|]. simpl.
  destruct (in_bounds tracks i) eqn:E; simpl.
  - now rewrite IH.
  - now rewrite (usable_at_out_of_bounds _ _ E).
Qed.

(** X11. Default hints that point outside the track list are ignored: a
    default caption track index that is negative or not below the length of
    the list counts as absent, and such entries of the default translation
    source indices are skipped. *)
Theorem chooseTrack_ignores_out_of_bounds
    (tracks : list CaptionTrack) (prefs : option (list string))
    (i : Z) (idxs : list Z) :
  in_bounds tracks i = false ->
  chooseTrack tracks prefs (Some i) (Some idxs)
  = chooseTrack tracks prefs None
      (Some (List.filter (in_bounds tracks) idxs)).
Proof.
  intros Hi. unfold chooseTrack. cbn [mbind option_bind].
  now rewrite (usable_at_out_of_bounds _ _ Hi), <- first_usable_in_bounds.
Qed.

Lemma chooseTrack_ignores_out_of_bounds_witness :
  chooseTrack example_tracks None (Some 3%Z) (Some [(-1)%Z; 7%Z; 2%Z])
  = chooseTrack example_tracks None None
      (Some (List.filter (in_bounds example_tracks) [(-1)%Z; 7%Z; 2%Z])).
Proof.
  apply (chooseTrack_ignores_out_of_bounds example_tracks None 3
           [(-1)%Z; 7%Z; 2%Z]).
  reflexivity.
Defined.

Lemma scan_no_match (ps : list string) (l : list CaptionTrack) :
  ~ Exists (fun p => Exists (pref_matches p) l) ps ->
  scan (List.map Str.toLowerCase ps) l = None.
Proof.
  induction ps as [|p ps IH]; intros Hno; [reflexivity|].
  cbn [List.map scan].
  destruct (List.find (lang_matches (Str.toLowerCase p)) l) as [t|] eqn:Ef.
  - destruct Hno. apply Exists_cons_hd.
    apply find_some in Ef as [Hin Hm].
    apply Exists_exists. exists t.
    split; [now apply list_elem_of_In | now apply TrackFacts.lang_matches_pref].
  - apply IH. intros H. apply Hno. now apply Exists_cons_tl.
Qed.

(** X12. When no manual track matches any preference and an asr track
    does, [chooseTrack] returns the track that the scan of the asr tracks
    finds (the first asr match of the first preference that has one),
    before any default hint is looked at. *)
Theorem chooseTrack_asr_after_manual
    (tracks : list CaptionTrack) (prefs : list string)
    (d : option Z) (idxs : option (list Z)) :
  ~ Exists (fun p => Exists (pref_matches p) (manual_tracks tracks)) prefs ->
  Exists (fun p => Exists (pref_matches p) (asr_tracks tracks)) prefs ->
  exists t, scan_choice prefs (asr_tracks tracks) t
            /\ kind t = "asr"
            /\ chooseTrack tracks (Some prefs) d idxs = Some (selection_of t).
Proof.
  intros Hno Hex.
  destruct (TrackFacts.scan_some prefs _ Hex) as (t & Hscan & Hchoice).
  exists t. split; [exact Hchoice|]. split.
  - apply TrackFacts.scan_elem in Hscan. unfold asr_tracks in Hscan.
    apply filter_elem in Hscan as [_ Hk].
    apply bool_decide_eq_true in Hk. tauto.
  - unfold chooseTrack.
    rewrite TrackFacts.manual_filter, TrackFacts.asr_filter.
    now rewrite (scan_no_match _ _ Hno), Hscan.
Qed.

Lemma chooseTrack_asr_after_manual_witness :
  exists t, scan_choice ["pt"] (asr_tracks example_tracks) t
            /\ kind t = "asr"
            /\ chooseTrack example_tracks (Some ["pt"]) (Some 0%Z) None
               = Some (selection_of t).
Proof.
  apply (chooseTrack_asr_after_manual example_tracks ["pt"] (Some 0%Z) None).
  - intros H. apply Exists_cons in H as [H | H]; [|now apply Exists_nil in H].
    cbn in H. repeat (apply Exists_cons in H as [[H | H] | H]; try discriminate H).
    now apply Exists_nil in H.
  - apply Exists_cons_hd. cbn. apply Exists_cons_hd. now left.
Defined.


(** ** Text without markup *)

Module PlainFacts.

Import StrPred.

Lemma not_includes_char (s : string) (a : ascii) :
  Str.includes s (String a "") = false ->
  all (fun c => negb (Ascii.eqb c a)) s = true.
Proof.
  induction s as [|c s IH]; [reflexivity|].
  cbn [Str.includes all]. intros H. apply orb_false_iff in H as [Hs H].
  rewrite (IH H), andb_true_r. unfold Str.startsWith in Hs. simpl in Hs.
  rewrite Ascii.eqb_sym. now destruct (Ascii.eqb a c).
Qed.

Lemma match_here_lit_head (a : ascii) (l : string) (r : regex) prev c t :
  Ascii.eqb c a = false ->
  match_here (Seq (Lit (String a l)) r) prev (String c t) = None.
Proof.
  intros H. unfold match_here. cbn [rmatch lit].
  now rewrite Ascii.eqb_sym, H.
Qed.

Lemma match_here_lit_only (a : ascii) (l : string) prev c t :
  Ascii.eqb c a = false ->
  match_here (Lit (String a l)) prev (String c t) = None.
Proof.
  intros H. unfold match_here. cbn [rmatch lit].
  now rewrite Ascii.eqb_sym, H.
Qed.

(** A global replacement of a literal leaves a text free of the first
    character of the literal as it is. *)
Lemma replaceAll_absent (a : ascii) (l rep s : string) prev :
  all (fun c => negb (Ascii.eqb c a)) s = true ->
  replaceAll_from (Lit (String a l)) rep 0 prev s = s.
Proof.
  revert prev. induction s as [|c s IH]; intros prev H; [reflexivity|].
  simpl in H. apply andb_true_iff in H as [Hc H]. apply negb_true_iff in Hc.
  cbn [replaceAll_from]. rewrite (match_here_lit_only a l prev c s Hc).
  now rewrite IH.
Qed.

(** No match of an expression that starts with a literal can be found in a
    text free of the first character of the literal. *)
Lemma matchAll_absent (a : ascii) (l : string) (r : regex) skip prev s :
  all (fun c => negb (Ascii.eqb c a)) s = true ->
  matchAll_from (Seq (Lit (String a l)) r) skip prev s = [].
Proof.
  revert skip prev. induction s as [|c s IH]; intros skip prev H.
  - now destruct skip.
  - simpl in H. apply andb_true_iff in H as [Hc H]. apply negb_true_iff in Hc.
    cbn [matchAll_from]. destruct skip; [|now apply IH].
    rewrite (match_here_lit_head a l r prev c s Hc). now apply IH.
Qed.

End PlainFacts.

(** X13. A text without an ampersand goes through [decodeHtml] unchanged. *)
Theorem decodeHtml_without_ampersand (s : string) :
  Str.includes s "&" = false -> decodeHtml s = s.
Proof.
  intros H. apply PlainFacts.not_includes_char in H.
  unfold decodeHtml, replaceAll. cbv zeta.
  rewrite (PlainFacts.replaceAll_absent "&" "amp;" "&" s) by exact H.
  rewrite (PlainFacts.replaceAll_absent "&" "lt;" "<" s) by exact H.
  rewrite (PlainFacts.replaceAll_absent "&" "gt;" ">" s) by exact H.
  rewrite (PlainFacts.replaceAll_absent "&" "quot;" DQ s) by exact H.
  now rewrite (PlainFacts.replaceAll_absent "&" "#39;" "'" s) by exact H.
Qed.

Lemma decodeHtml_without_ampersand_witness :
  decodeHtml "1 < 2; it's <b>fine</b>" = "1 < 2; it's <b>fine</b>".
Proof.
  apply (decodeHtml_without_ampersand "1 < 2; it's <b>fine</b>"). reflexivity.
Defined.

(** X14. A document without the character [<] holds no segment of either
    dialect: [parseSegments] returns the empty list. *)
Theorem parseSegments_without_tags (secondsToMs : string -> number) (xml : string) :
  Str.includes xml "<" = false -> parseSegments secondsToMs xml = [].
Proof.
  intros H. apply PlainFacts.not_includes_char in H.
  unfold parseSegments, parseTranscriptTexts, parseTimedtext, matchAll.
  unfold transcript_text_re, timedtext_p_re. cbn [Seqs].
  now rewrite !(PlainFacts.matchAll_absent "<") by exact H.
Qed.

Lemma parseSegments_without_tags_witness :
  parseSegments (fun _ => Num 0) "WEBVTT 00:01.000 --> 00:04.000 Hi" = [].
Proof.
  apply (parseSegments_without_tags (fun _ => Num 0)
           "WEBVTT 00:01.000 --> 00:04.000 Hi").
  reflexivity.
Defined.


(** ** Where parsed segments come from *)

Module ParseFacts.






(** Up to 2^53 an integer is its own Number value. *)
Lemma of_integer_exact (z : Z) :
  (Z.abs z < 2 ^ 53)%Z -> Number.of_integer z = Num z.
Proof.
  intros H. unfold Number.of_integer.
  assert (Number.round_magnitude (Z.abs z) = Z.abs z) as ->.
  { unfold Number.round_magnitude. cbv zeta.
    destruct (Z.leb_spec (Z.log2 (Z.abs z) - 52) 0) as [_ | Hlog]; [reflexivity|].
    exfalso. destruct (Z.eq_dec (Z.abs z) 0%Z) as [E | E].
    - rewrite E in Hlog. simpl in Hlog. lia.
    - apply Z.log2_lt_pow2 in H; lia. }
  destruct (Z.leb_spec (Z.shiftl 1 1024) (Z.abs z)) as [Hbig | _].
  - exfalso. rewrite Z.shiftl_1_l in Hbig.
    assert (2 ^ 53 < 2 ^ 1024)%Z by (apply Z.pow_lt_mono_r; lia). lia.
  - f_equal. destruct z; simpl; lia.
Qed.




End ParseFacts.




(** ** More on [normalizeSegments] *)

Module NormalizeFacts.

Lemma spec_keep_from_item items i s :
  i ∈ items -> spec_keep i = Some s -> from_item items s.
Proof.
  destruct i as [[[t|] st d]|]; simpl; try discriminate.
  intros Hin. destruct (Str.nonempty (Str.trim t)); [|discriminate].
  intros [= <-]. now exists (mkRaw (Some t) st d), t.
Qed.

Lemma first_occurrences_length l : length (first_occurrences l) <= length l.
Proof.
  induction l as [|s l IH]; simpl; [lia|].
  pose proof (filter_length_le (fun x => negb (same_key s x))
                (first_occurrences l)) as H.
  unfold filter in H. simpl in *. lia.
Qed.

Lemma omap_length {A B} (f : A -> option B) (l : list A) :
  length (omap f l) <= length l.
Proof.
  induction l as [|a l IH]; [reflexivity|].
  cbn [omap list_omap]. fold (omap f l). destruct (f a); simpl; lia.
Qed.

(** Every key of the list is the key of a first occurrence. *)
Lemma first_occurrences_key l x :
  x ∈ l -> composite_key x ∈ composite_key <$> first_occurrences l.
Proof.
  induction l as [|s l IH]; [now intros H%elem_of_nil|].
  intros [-> | Hx]%elem_of_cons; cbn [first_occurrences]; rewrite fmap_cons.
  - left.
  - specialize (IH Hx). apply list_elem_of_fmap in IH as (y & Hk & Hy).
    destruct (same_key s y) eqn:E.
    + unfold same_key in E. apply bool_decide_eq_true in E.
      rewrite Hk, <- E. left.
    + right. apply list_elem_of_fmap. exists y. split; [exact Hk|].
      apply list_elem_of_In, filter_In. split; [now apply list_elem_of_In|].
      now rewrite E.
Qed.

End NormalizeFacts.

(** X17. [normalizeSegments] invents nothing: every segment of its output is
    an element of the input with its text trimmed, start and duration kept,
    and the output is not longer than the input. *)
Theorem normalizeSegments_from_input (items : list (option RawSegment)) :
  Forall (from_item items) (normalizeSegments items)
  /\ length (normalizeSegments items) <= length items.
Proof.
  rewrite normalizeSegments_unfold. split.
  - rewrite (SortFacts.sort_perm (first_occurrences _)).
    apply Forall_forall. intros s Hs.
    apply DedupFacts.first_occurrences_incl in Hs.
    apply list_elem_of_omap in Hs as (i & Hin & Hi).
    eapply NormalizeFacts.spec_keep_from_item; eassumption.
  - rewrite (Permutation_length (SortFacts.sort_perm _)).
    etransitivity; [apply NormalizeFacts.first_occurrences_length|].
    apply NormalizeFacts.omap_length.
Qed.

(** X18. [normalizeSegments] loses no key: for every element of the input
    whose text is a string that is not empty once trimmed, the output holds
    a segment with the same start and that trimmed text. *)
Theorem normalizeSegments_keeps_keys
    (items : list (option RawSegment)) (r : RawSegment) (t : string) :
  Some r ∈ items -> raw_text r = Some t -> Str.trim t <> "" ->
  (raw_startInMs r, Str.trim t) ∈ composite_key <$> normalizeSegments items.
Proof.
  intros Hin Ht Hne. rewrite normalizeSegments_unfold.
  rewrite (SortFacts.sort_perm (first_occurrences _)).
  apply (NormalizeFacts.first_occurrences_key _
           {| text := Str.trim t; startInMs := raw_startInMs r;
              duration := raw_duration r |}).
  apply list_elem_of_omap. exists (Some r). split; [exact Hin|].
  unfold spec_keep. rewrite Ht.
  now destruct (Str.trim t).
Qed.

Lemma normalizeSegments_keeps_keys_witness :
  (Num 20, Str.trim "b ")
  ∈ composite_key
      <$> normalizeSegments
            [ Some (mkRaw (Some " b") (Num 20) (Num 1)); None;
              Some (mkRaw (Some "b ") (Num 20) (Num 7)) ].
Proof.
  apply (normalizeSegments_keeps_keys _ (mkRaw (Some "b ") (Num 20) (Num 7)) "b ").
  - set_solver.
  - reflexivity.
  - discriminate.
Defined.


(** ** What the pipeline and the handler return *)

Module ResultFacts.

Lemma bind_some {A B} (m : M A) (f : A -> M (option B)) w x w' :
  bind m f w = (Ok (Some x), w') ->
  exists a w1, m w = (Ok a, w1) /\ f a w1 = (Ok (Some x), w').
Proof.
  unfold bind. destruct (m w) as [[a|e] w1]; [|discriminate].
  intros H. now exists a, w1.
Qed.

Lemma log_not_some cat msg w (segs : list TranscriptSegment) w' :
  (after logError cat msg do ret None) w <> (Ok (Some segs), w').
Proof. discriminate. Qed.

(** A list returned by the [try] block is the normalized parse of some
    document. *)
Lemma try_some secondsToMs net args w segs w' :
  transcriptYt_try secondsToMs net args w = (Ok (Some segs), w') ->
  exists xml,
    segs = normalizeSegments (of_segment <$> parseSegments secondsToMs xml).
Proof.
  unfold transcriptYt_try.
  destruct (truthy (extractVideoId (videoUrl args))) as [id|];
    [|intros H; now apply log_not_some in H].
  intros (html & w1 & _ & H)%bind_some.
  destruct (truthy (extractInnertubeApiKey html)) as [key|];
    [|now apply log_not_some in H].
  apply bind_some in H as (data & w2 & _ & H).
  apply bind_some in H as (_ & w3 & _ & H). cbv zeta in H.
  destruct (default [] _); [now apply log_not_some in H|].
  destruct (chooseTrack _ _ _ _) as [picked|]; [|now apply log_not_some in H].
  apply bind_some in H as (xml & w4 & _ & H). exists xml.
  destruct (normalizeSegments _); [now apply log_not_some in H|].
  now injection H as <- _.
Qed.

Lemma transcriptYt_some secondsToMs net args w segs w' :
  transcriptYt secondsToMs net args w = (Ok (Some segs), w') ->
  exists xml,
    segs = normalizeSegments (of_segment <$> parseSegments secondsToMs xml).
Proof.
  unfold transcriptYt, try_catch.
  destruct (transcriptYt_try secondsToMs net args w) as [[r|e] w1] eqn:E.
  - intros [= -> ->]. eapply try_some, E.
  - destruct (PipelineFacts.transcriptYt_catch_outcome e w1)
      as (cat & msg & _ & ->). discriminate.
Qed.



End ResultFacts.

(** X19. Whatever the input and the network, a list that [transcriptYt]
    returns has only texts that are non-empty and trimmed, and no two
    segments with the same start and the same text. *)
Theorem transcriptYt_segments_clean
    (secondsToMs : string -> number) (net : Network)
    (args : TranscriptYtArgs) (w : World) :
  match fst (transcriptYt secondsToMs net args w) with
  | Ok (Some segs) =>
      Forall clean_text segs /\ NoDup (composite_key <$> segs)
  | _ => True
  end.
Proof.
  destruct (transcriptYt secondsToMs net args w) as [[[segs|]|e] w'] eqn:E;
    try exact I.
  apply ResultFacts.transcriptYt_some in E as (xml & ->). cbn [fst]. split.
  - apply normalizeSegments_clean.
  - apply normalizeSegments_nodup.
Qed.


(** X21. When the caption document of the selected track is answered with
    a status outside 200..299, the run ends after three calls with
    [yt_request_failed_] followed by the status logged under
    [network_error]. *)
Theorem transcriptYt_captions_http_error
    (secondsToMs : string -> number) (net : Network) (args : TranscriptYtArgs)
    (w : World) (id html key : string) (data : option PlayerResponse)
    (sel : Selection) (resp : Response) :
  extractVideoId (videoUrl args) = Some id ->
  page_served net w id html key ->
  player_served net w key id data ->
  assertPlayability (data ≫= playabilityStatus) = Ok tt ->
  picked_of args data = Some sel ->
  net (fetched w + 2) (captions_request sel) = Ok resp ->
  res_ok resp = false ->
  transcriptYt secondsToMs net args w
  = (Ok None,
     advanced w 3
       [log_line "network_error"
          ("yt_request_failed_" +:+ pretty (res_status resp))]).
Proof.
  intros Hid Hpage Hplayer Hguard Hsel Hnet Hok.
  unfold transcriptYt, try_catch.
  rewrite (RunFacts.try_with_data _ _ _ _ id html key data Hid Hpage Hplayer).
  unfold after_player, bind at 1, lift. rewrite Hguard.
  assert (tracks_of data <> []) as Htracks.
  { intros E. unfold picked_of in Hsel. rewrite E in Hsel.
    rewrite (proj2 (NoTrackFacts.chooseTrack_null_iff [] _ _ _)) in Hsel
      by constructor.
    discriminate Hsel. }
  destruct (tracks_of data) as [|t0 ts]; [now destruct Htracks|].
  rewrite Hsel. unfold bind at 1, fetchCaptions, bind at 1, fetch.
  cbn [fetched advanced]. fold (captions_request sel).
  replace (fetched w + 2 + 0) with (fetched w + 2) by lia.
  rewrite Hnet, Hok. cbn [negb throw].
  rewrite CatchFacts.catch_network.
  - unfold advanced. cbn. repeat f_equal; [now rewrite app_nil_r | lia].
  - apply orb_true_iff. left.
    apply (MatchFacts.includes_app "" "yt_request_failed_").
Qed.

Lemma transcriptYt_captions_http_error_witness :
  transcriptYt (fun _ => Num 0)
    (example_net (json_response 200 (example_data None example_tracks))
       (text_response 403 ""))
    example_args (mkWorld [] 0)
  = (Ok None,
     advanced (mkWorld [] 0) 3
       [log_line "network_error" ("yt_request_failed_" +:+ pretty 403%Z)]).
Proof.
  apply (transcriptYt_captions_http_error _ _ _ _
           "dQw4w9WgXcQ" example_page example_key
           (example_data None example_tracks)
           {| url := "https://video.example/tt?lang=en"; lang := "en" |}
           (text_response 403 "")).
  - reflexivity.
  - apply example_page_served.
  - eexists. repeat split.
  - reflexivity.
  - reflexivity.
  - reflexivity.
  - reflexivity.
Defined.


(** ** The consent form *)

Lemma catch_literal msg w :
  msg ∈ ["consent_cookie_create_failed"; "consent_cookie_invalid"] ->
  transcriptYt_catch (JsError msg) w
  = (Ok None, advanced w 0 [log_line "other_error" msg]).
Proof.
  intros H.
  repeat (apply elem_of_cons in H as [-> | H];
          [cbn; unfold advanced; now rewrite Nat.add_0_r|]).
  now apply elem_of_nil in H.
Qed.

(** X22. When the watch page shows the consent form and holds no token
    [v], the run ends after that one call: [consent_cookie_create_failed]
    is logged, under [other_error], and [null] is returned. *)
Theorem transcriptYt_consent_without_token
    (secondsToMs : string -> number) (net : Network) (args : TranscriptYtArgs)
    (w : World) (id html : string) :
  extractVideoId (videoUrl args) = Some id ->
  consent_wall net (fetched w) (watch_request id) html ->
  exec consent_v_re html = None ->
  transcriptYt secondsToMs net args w
  = (Ok None,
     advanced w 1 [log_line "other_error" "consent_cookie_create_failed"]).
Proof.
  intros Hid (resp & Hnet & Hok & Htext & Hwall) Hv.
  apply FetchFacts.truthy_video_id in Hid.
  unfold transcriptYt, try_catch, transcriptYt_try. rewrite Hid.
  unfold bind at 1. unfold fetchWatchHtml. unfold bind at 1.
  rewrite (CatchFacts.fetchText_ok net _ _ w resp html Hnet Hok Htext).
  rewrite Hwall, Hv. unfold throw.
  rewrite catch_literal by set_solver.
  now rewrite CatchFacts.advanced_advanced.
Qed.

Lemma transcriptYt_consent_without_token_witness :
  transcriptYt (fun _ => Num 0)
    (fun _ _ => Ok (text_response 200 (example_consent_page None)))
    example_args (mkWorld [] 0)
  = (Ok None,
     advanced (mkWorld [] 0) 1
       [log_line "other_error" "consent_cookie_create_failed"]).
Proof.
  apply (transcriptYt_consent_without_token _ _ _ _
           "dQw4w9WgXcQ" (example_consent_page None)).
  - reflexivity.
  - eexists. repeat split.
  - reflexivity.
Defined.

(** X23. When the watch page shows the consent form with a token [v], the
    page is requested once more with the cookie [CONSENT=YES+v]; when the
    answer still shows the form, the run ends after these two calls:
    [consent_cookie_invalid] is logged, under [other_error], and [null] is
    returned. *)
Theorem transcriptYt_consent_refused
    (secondsToMs : string -> number) (net : Network) (args : TranscriptYtArgs)
    (w : World) (id html html' : string) (m : caps) :
  extractVideoId (videoUrl args) = Some id ->
  consent_wall net (fetched w) (watch_request id) html ->
  exec consent_v_re html = Some m ->
  consent_wall net (fetched w + 1)
    (consent_request id (group_or_empty 1 m)) html' ->
  transcriptYt secondsToMs net args w
  = (Ok None, advanced w 2 [log_line "other_error" "consent_cookie_invalid"]).
Proof.
  intros Hid (resp & Hnet & Hok & Htext & Hwall) Hv
         (resp' & Hnet' & Hok' & Htext' & Hwall').
  apply FetchFacts.truthy_video_id in Hid.
  unfold transcriptYt, try_catch, transcriptYt_try. rewrite Hid.
  unfold bind at 1. unfold fetchWatchHtml. unfold bind at 1.
  rewrite (CatchFacts.fetchText_ok net _ _ w resp html Hnet Hok Htext).
  rewrite Hwall, Hv. unfold bind at 1.
  rewrite (CatchFacts.fetchText_ok net _ _ (advanced w 1 []) resp' html');
    [|exact Hnet'|exact Hok'|exact Htext'].
  rewrite Hwall'. unfold throw.
  rewrite catch_literal by set_solver.
  now rewrite !CatchFacts.advanced_advanced.
Qed.

Lemma transcriptYt_consent_refused_witness :
  transcriptYt (fun _ => Num 0)
    (fun _ _ => Ok (text_response 200 (example_consent_page (Some "cb.1"))))
    example_args (mkWorld [] 0)
  = (Ok None,
     advanced (mkWorld [] 0) 2
       [log_line "other_error" "consent_cookie_invalid"]).
Proof.
  apply (transcriptYt_consent_refused _ _ _ _ "dQw4w9WgXcQ"
           (example_consent_page (Some "cb.1"))
           (example_consent_page (Some "cb.1")) [(1, "cb.1")]).
  - reflexivity.
  - eexists. repeat split.
  - reflexivity.
  - eexists. repeat split.
Defined.

(** ** Preferences *)

Lemma lower_idem (c : ascii) : Chars.lower (Chars.lower c) = Chars.lower c.
Proof. destruct c as [[] [] [] [] [] [] [] []]; reflexivity. Qed.

Lemma toLowerCase_idem (s : string) :
  Str.toLowerCase (Str.toLowerCase s) = Str.toLowerCase s.
Proof.
  unfold Str.toLowerCase. induction s as [|c s IH]; [reflexivity|].
  simpl. now rewrite lower_idem, IH.
Qed.

(** X24. The case of the preferred language codes does not matter:
    [chooseTrack] answers the same for the preferences and for their
    lower-case forms. *)
Theorem chooseTrack_preferences_any_case
    (tracks : list CaptionTrack) (prefs : list string)
    (d : option Z) (idxs : option (list Z)) :
  chooseTrack tracks (Some prefs) d idxs
  = chooseTrack tracks (Some (List.map Str.toLowerCase prefs)) d idxs.
Proof.
  unfold chooseTrack. rewrite List.map_map.
  now rewrite (List.map_ext _ _ toLowerCase_idem).
Qed.

(** X25. An empty preferred language code matches every track: as soon as
    no earlier preference matches a manual track, the first manual track is
    selected, whatever the default hints are. *)
Theorem chooseTrack_empty_preference
    (tracks : list CaptionTrack) (earlier later : list string)
    (t : CaptionTrack) (rest : list CaptionTrack)
    (d : option Z) (idxs : option (list Z)) :
  manual_tracks tracks = t :: rest ->
  ~ Exists (fun p => Exists (pref_matches p) (manual_tracks tracks)) earlier ->
  chooseTrack tracks (Some (earlier ++ "" :: later)) d idxs
  = Some (selection_of t).
Proof.
  intros Hm Hno. unfold chooseTrack. rewrite TrackFacts.manual_filter.
  assert (scan (List.map Str.toLowerCase (earlier ++ "" :: later))
            (manual_tracks tracks) = Some t) as ->; [|reflexivity].
  clear d idxs. induction earlier as [|p earlier IH]; cbn [List.map app scan].
  - rewrite Hm. cbn [List.find]. unfold lang_matches, Str.startsWith.
    cbn [Str.toLowerCase Str.map Str.strip]. now rewrite orb_true_r.
  - destruct (List.find (lang_matches (Str.toLowerCase p)) (manual_tracks tracks))
      as [x|] eqn:Ef.
    + destruct Hno. apply Exists_cons_hd.
      apply find_some in Ef as [Hin Hx]. apply Exists_exists. exists x.
      split; [now apply list_elem_of_In | now apply TrackFacts.lang_matches_pref].
    + apply IH. intros H. apply Hno. now apply Exists_cons_tl.
Qed.

Lemma chooseTrack_empty_preference_witness :
  chooseTrack example_tracks (Some ([] ++ "" :: ["pt"])) (Some 2%Z) None
  = Some (selection_of (mkTrack "" "es" "https://video.example/tt?lang=es")).
Proof.
  apply (chooseTrack_empty_preference example_tracks [] ["pt"]
           (mkTrack "" "es" "https://video.example/tt?lang=es")
           [mkTrack "" "en" "https://video.example/tt?lang=en&fmt=srv3"]).
  - reflexivity.
  - intros H. now apply Exists_nil in H.
Defined.
